(** * Second-order semantic role labelling with variational inference

    A shallow embedding of [supar/models/srl.py]
    ([VISemanticRoleLabelingModel.forward], [.loss], [.decode]) and of the
    arc mask built in [supar/parsers/sdp.py]
    ([VISemanticDependencyParser._train], [._predict]).

    Tensors are modelled the way the tensor library presents them: a shape and
    an element for every index, with the library's operations ([triu],
    [transpose], [permute], [unsqueeze], broadcasting binary operations,
    [argmax], boolean-mask indexing, in-place [masked_fill_]) written out.
    Operations that allocate or mutate are run in a state-and-error monad over
    a store of tensors, so that aliasing and in-place updates are visible. *)

From Stdlib Require Import ZArith Floats Lia.
From stdpp Require Import base option list strings.

Set Default Proof Using "Type".

(** ** Scalars

    The element type of a floating tensor.  The development is parametric in
    the floating format (the model runs in single precision, or in half
    precision under autocast).  The laws are those of IEEE-754 arithmetic
    that the proofs use: addition is commutative; [y <= x] excludes [x < y];
    [<] is asymmetric and excluded by [==]; and on values that are not NaN
    (those equal to themselves) the order is total and transitive. *)

Class Scalar := {
  F : Type;
  fzero : F;
  fone : F;
  fhalf : F;
  fadd : F -> F -> F;
  fsub : F -> F -> F;
  fmul : F -> F -> F;
  feqb : F -> F -> bool;
  fltb : F -> F -> bool;
  fleb : F -> F -> bool;
  fadd_comm : forall x y, fadd x y = fadd y x;
  fleb_not_ltb : forall x y, fleb y x = true -> fltb x y = false;
  fltb_asym : forall x y, fltb x y = true -> fltb y x = false;
  feqb_not_ltb : forall x y, feqb x y = true -> fltb x y = false;
  fltb_total : forall x y,
    feqb x x = true -> feqb y y = true ->
    feqb x y = false -> fltb y x = false -> fltb x y = true;
  fleb_ltb_trans : forall x y z,
    feqb y y = true -> fltb x y = false -> fltb x z = true -> fltb y z = true
}.

(** A value is a NaN exactly when it differs from itself. *)
Definition fisnan `{Scalar} (x : F) : bool := negb (feqb x x).

(** ** Tensors *)

Record tensor (A : Type) := Tensor {
  shape : list nat;
  elem : list nat -> A
}.
Arguments Tensor {A} _ _.
Arguments shape {A} _.
Arguments elem {A} _ _.

Module Torch.

(** [in_bounds idx sh]: [idx] is a full index into a tensor of shape [sh]. *)
Fixpoint in_bounds (idx sh : list nat) : bool :=
  match idx, sh with
  | [], [] => true
  | i :: idx', d :: sh' => (i <? d) && in_bounds idx' sh'
  | _, _ => false
  end.

(** [t[i0, ..., ik]] with one index per dimension; an index outside the shape
    raises [IndexError], here [None]. *)
Definition get {A} (t : tensor A) (idx : list nat) : option A :=
  if in_bounds idx (shape t) then Some (elem t idx) else None.

(** All indices of a shape, in row-major order. *)
Fixpoint indices (sh : list nat) : list (list nat) :=
  match sh with
  | [] => [[]]
  | d :: sh' => i ← seq 0 d; (i ::.) <$> indices sh'
  end.

(** [t.tolist()], flattened. *)
Definition tolist {A} (t : tensor A) : list A := elem t <$> indices (shape t).

(** A Python dimension argument, possibly negative, against a rank. *)
Definition norm_dim (rank : nat) (d : Z) : option nat :=
  if (0 <=? d)%Z then
    (if (d <? Z.of_nat rank)%Z then Some (Z.to_nat d) else None)
  else
    (if (- Z.of_nat rank <=? d)%Z then Some (Z.to_nat (Z.of_nat rank + d))
     else None).

(** *** Broadcasting *)

(** Shapes are aligned at their trailing dimension; two sizes are compatible
    when they are equal or one of them is 1.  Works on reversed shapes. *)
Fixpoint broadcast_rev (s1 s2 : list nat) : option (list nat) :=
  match s1, s2 with
  | [], s | s, [] => Some s
  | a :: s1', b :: s2' =>
      d ← (if a =? b then Some a
           else if a =? 1 then Some b
           else if b =? 1 then Some a
           else None);
      r ← broadcast_rev s1' s2';
      Some (d :: r)
  end.

Definition broadcast_shapes (s1 s2 : list nat) : option (list nat) :=
  reverse <$> broadcast_rev (reverse s1) (reverse s2).

(** The index read in an operand of shape [s] for the output index [idx]:
    leading output dimensions the operand lacks are dropped and a dimension
    of size 1 is read at 0. *)
Definition bidx (s idx : list nat) : list nat :=
  zip_with (fun d i => if d =? 1 then 0 else i) s
           (drop (length idx - length s) idx).

Definition pointwise {A B} (f : A -> B) (t : tensor A) : tensor B :=
  Tensor (shape t) (fun idx => f (elem t idx)).

Definition pointwise2 {A B C} (f : A -> B -> C)
    (t1 : tensor A) (t2 : tensor B) : option (tensor C) :=
  sh ← broadcast_shapes (shape t1) (shape t2);
  Some (Tensor sh (fun idx =>
          f (elem t1 (bidx (shape t1) idx)) (elem t2 (bidx (shape t2) idx)))).

(** *** Views *)

(** [t.transpose(d0, d1)] *)
Definition swap (i j : nat) (l : list nat) : list nat :=
  <[i := l !!! j]> (<[j := l !!! i]> l).

Definition transpose {A} (d0 d1 : Z) (t : tensor A) : option (tensor A) :=
  i ← norm_dim (length (shape t)) d0;
  j ← norm_dim (length (shape t)) d1;
  Some (Tensor (swap i j (shape t)) (fun idx => elem t (swap i j idx))).

(** [t.permute(dims)]: dimension [k] of the result is dimension [dims[k]] of
    [t]; [dims] must name every dimension once. *)
Definition is_permutation (dims : list nat) (rank : nat) : bool :=
  (length dims =? rank) &&
  forallb (fun p => existsb (Nat.eqb p) dims) (seq 0 rank).

Definition scatter (dims idx : list nat) : list nat :=
  foldr (fun '(d, i) acc => <[d := i]> acc)
        (replicate (length dims) 0) (zip dims idx).

Definition permute {A} (dims : list nat) (t : tensor A) : option (tensor A) :=
  if is_permutation dims (length (shape t)) then
    Some (Tensor ((fun d => shape t !!! d) <$> dims)
                 (fun idx => elem t (scatter dims idx)))
  else None.

(** [t.unsqueeze(d)] for [0 <= d <= rank]. *)
Definition unsqueeze {A} (d : nat) (t : tensor A) : option (tensor A) :=
  if d <=? length (shape t) then
    Some (Tensor (take d (shape t) ++ 1 :: drop d (shape t))
                 (fun idx => elem t (delete d idx)))
  else None.

(** *** Operations that build a new tensor *)

(** [t.triu(diagonal)]: on the last two dimensions, the entries with
    [column - row >= diagonal] are kept and the others are set to zero. *)
Definition triu {A} (zero : A) (diagonal : Z) (t : tensor A)
    : option (tensor A) :=
  if 2 <=? length (shape t) then
    Some (Tensor (shape t) (fun idx =>
            match reverse idx with
            | c :: r :: _ =>
                if (diagonal <=? Z.of_nat c - Z.of_nat r)%Z
                then elem t idx else zero
            | _ => zero
            end))
  else None.

(** [torch.tensor(xs).reshape(sh)]: the tensor of shape [sh] whose entries
    are those of [xs] in row-major order ([d] beyond the list). *)
Definition flat_index (sh idx : list nat) : nat :=
  foldl (fun acc '(d, i) => acc * d + i) 0 (zip sh idx).

Definition of_list {A} (sh : list nat) (xs : list A) (d : A) : tensor A :=
  Tensor sh (fun idx => nth (flat_index sh idx) xs d).

(** [t.masked_fill_(mask, v)] computes this tensor to store back into [t]:
    the mask is broadcast to the shape of [t], which it may not enlarge. *)
Definition masked_fill {A} (t : tensor A) (mask : tensor bool) (v : A)
    : option (tensor A) :=
  sh ← broadcast_shapes (shape t) (shape mask);
  if decide (sh = shape t) then
    Some (Tensor (shape t) (fun idx =>
            if elem mask (bidx (shape mask) idx) then v else elem t idx))
  else None.

(** [t[:, 0] = v]: needs two dimensions and a non-empty second one. *)
Definition setitem_col0 {A} (t : tensor A) (v : A) : option (tensor A) :=
  match shape t with
  | _ :: d1 :: _ =>
      if 0 <? d1 then
        Some (Tensor (shape t) (fun idx =>
                match idx with
                | _ :: 0 :: _ => v
                | _ => elem t idx
                end))
      else None
  | _ => None
  end.

(** The sub-tensors of [t] at the positions [pos] of its [k] leading
    dimensions, stacked in the order of [pos]. *)
Definition gather {A} (t : tensor A) (pos : list (list nat)) (k : nat)
    : tensor A :=
  Tensor (length pos :: drop k (shape t)) (fun idx =>
    match idx with
    | r :: rest => elem t ((pos !!! r) ++ rest)
    | [] => elem t []
    end).

(** [t[mask]] for a boolean [mask] whose shape is a prefix of the shape of
    [t]: the selected sub-tensors, in row-major order of the true entries. *)
Definition selected (mask : tensor bool) : list (list nat) :=
  filter (fun idx => elem mask idx = true) (indices (shape mask)).

Definition masked_select {A} (t : tensor A) (mask : tensor bool)
    : option (tensor A) :=
  let k := length (shape mask) in
  if decide (take k (shape t) = shape mask) then
    Some (gather t (selected mask) k)
  else None.

(** [t.ge(c)] on an integer tensor, [a & b], and [t.long()] on a boolean
    tensor. *)
Definition ge_scalar (t : tensor Z) (c : Z) : tensor bool :=
  pointwise (fun v => (c <=? v)%Z) t.

Definition logical_and : tensor bool -> tensor bool -> option (tensor bool) :=
  pointwise2 andb.

Definition to_long (t : tensor bool) : tensor Z :=
  pointwise (fun v : bool => if v then 1%Z else 0%Z) t.

(** The positions, in row-major order, where the gold label is known and the
    structural mask is true. *)
Definition known_positions (labels : tensor Z) (mask : tensor bool)
    : list (list nat) :=
  filter (fun idx => (0 <= elem labels idx)%Z /\ elem mask idx = true)
         (indices (shape labels)).

Section Floating.
Context `{Scalar}.

(** [t.lt(c)], [c * t] for a Python number [c], and [a + b]. *)
Definition lt_scalar (t : tensor F) (c : F) : tensor bool :=
  pointwise (fun v => fltb v c) t.

Definition mul_scalar (c : F) (t : tensor F) : tensor F :=
  pointwise (fmul c) t.

Definition add : tensor F -> tensor F -> option (tensor F) := pointwise2 fadd.

(** The sum of a list of scalars, from the right. *)
Definition fsum (xs : list F) : F := foldr fadd fzero xs.

(** The comparison of the library's arg-max reduction: [a] at [idx_a] is
    kept against [b] at [idx_b] when it is a NaN, or greater, or equal with
    the lower index. *)
Definition greater_or_nan (a b : F) (idx_a idx_b : nat) : bool :=
  if fisnan a then (if fisnan b then idx_a <? idx_b else true)
  else if feqb a b then idx_a <? idx_b
  else fltb b a.

Fixpoint argmax_from (arg : F) (arg_i i : nat) (xs : list F) : nat :=
  match xs with
  | [] => arg_i
  | x :: xs' =>
      if greater_or_nan arg x arg_i i then argmax_from arg arg_i (S i) xs'
      else argmax_from x i (S i) xs'
  end.

Definition argmax_row (xs : list F) : nat :=
  match xs with
  | [] => 0
  | x :: xs' => argmax_from x 0 1 xs'
  end.

(** [a] is the first index of a maximal entry of [xs]. *)
Definition first_maximal (xs : list F) (a : nat) : Prop :=
  exists m, xs !! a = Some m /\
    (forall k x, xs !! k = Some x -> fltb m x = false) /\
    (forall k x, k < a -> xs !! k = Some x -> fltb x m = true).

(** The entries of [t] along dimension [d] at the position [idx] of the
    other dimensions. *)
Definition fibre {A} (t : tensor A) (d : nat) (idx : list nat) : list A :=
  (fun l => elem t (take d idx ++ l :: drop d idx)) <$> seq 0 (shape t !!! d).

(** The label scores at an index of the leading dimensions. *)
Definition label_scores {A} (s_label : tensor A) (idx : list nat) : list A :=
  fibre s_label (length idx) idx.

(** [t.argmax(dim)]: reducing an empty dimension is an error; a 0-dim tensor
    is reduced as if it had one dimension. *)
Definition argmax (dim : Z) (t : tensor F) : option (tensor Z) :=
  match shape t with
  | [] =>
      if ((-1 <=? dim) && (dim <=? 0))%Z
      then Some (Tensor [] (fun _ => 0%Z)) else None
  | _ =>
      d ← norm_dim (length (shape t)) dim;
      if shape t !!! d =? 0 then None
      else Some (Tensor (delete d (shape t)) (fun idx =>
                   Z.of_nat (argmax_row (fibre t d idx))))
  end.

End Floating.

End Torch.

Import Torch.

(** ** The potential assembler of [VISemanticRoleLabelingModel.forward] *)

Section Forward.
Context `{Scalar}.

(** [s_sib = (s_sib.triu() + s_sib.triu(1).transpose(-1, -2)).permute(0, 3, 1, 2)]
    where [raw] is the output of the sibling scorer. *)
Definition forward_sib (raw : tensor F) : option (tensor F) :=
  upper ← triu fzero 0 raw;
  strict ← triu fzero 1 raw;
  lower ← transpose (-1) (-2) strict;
  s ← add upper lower;
  permute [0; 3; 1; 2] s.

(** [s_cop = self.cop_attn(...).permute(0, 3, 1, 2)]
    [s_cop = s_cop.triu() + s_cop.triu(1).transpose(-1, -2)] *)
Definition forward_cop (raw : tensor F) : option (tensor F) :=
  s_cop ← permute [0; 3; 1; 2] raw;
  upper ← triu fzero 0 s_cop;
  strict ← triu fzero 1 s_cop;
  lower ← transpose (-1) (-2) strict;
  add upper lower.

(** [s_grd = self.grd_attn(...).permute(0, 3, 1, 2)] *)
Definition forward_grd (raw : tensor F) : option (tensor F) :=
  permute [0; 3; 1; 2] raw.

(** [s_label = self.label_attn(...).permute(0, 2, 3, 1)] *)
Definition forward_label (raw : tensor F) : option (tensor F) :=
  permute [0; 2; 3; 1] raw.

(** The part of [forward] that follows the scorers, whose outputs it takes:
    the encoder, the feed-forward layers and the biaffine and triaffine
    scorers are outside the sources.
    [return s_egde, s_sib, s_cop, s_grd, s_label] *)
Definition forward (edge sib cop grd label : tensor F)
    : option (tensor F * tensor F * tensor F * tensor F * tensor F) :=
  s_sib ← forward_sib sib;
  s_cop ← forward_cop cop;
  s_grd ← forward_grd grd;
  s_label ← forward_label label;
  Some (edge, s_sib, s_cop, s_grd, s_label).

End Forward.

(** Reading the assembled potentials by role.  The source lays both tensors
    out as [batch, dependent, head, third] (its comments: [(d->h->s)] for the
    sibling scores, [(d->h->c)] for the co-parent scores). *)
Definition sib_at `{Scalar} (s_sib : tensor F) (b head dep sibling : nat)
    : option F := get s_sib [b; dep; head; sibling].

Definition cop_at `{Scalar} (s_cop : tensor F) (b head dep coparent : nat)
    : option F := get s_cop [b; dep; head; coparent].

(** ** The store of tensors

    Every tensor object lives in a cell of the store; a location is the index
    of its cell.  Objects are never freed.  A computation may fail (a raised
    exception) and otherwise returns the new store with its result. *)

(** A location of the store. *)
Abbreviation loc := nat (only parsing).

Section Store.
Context `{Scalar}.

Inductive value :=
  | VFloat (t : tensor F)
  | VLong (t : tensor Z)
  | VBool (t : tensor bool).

Definition M (A : Type) : Type := list value -> option (list value * A).

#[export] Instance M_ret : MRet M := fun A x s => Some (s, x).
#[export] Instance M_bind : MBind M := fun A B f m s =>
  match m s with
  | Some (s', a) => f a s'
  | None => None
  end.

Definition lift {A} (o : option A) : M A := fun s => (s,.) <$> o.

Definition alloc (v : value) : M loc := fun s => Some (s ++ [v], length s).

Definition read (l : loc) : M value := fun s => (s,.) <$> s !! l.

Definition write (l : loc) (v : value) : M unit := fun s =>
  if decide (l < length s) then Some (<[l := v]> s, ()) else None.

(** Reading an object as a tensor of a given element type; another type of
    object is an error. *)
Definition as_float (v : value) : option (tensor F) :=
  match v with VFloat t => Some t | _ => None end.
Definition as_long (v : value) : option (tensor Z) :=
  match v with VLong t => Some t | _ => None end.
Definition as_bool (v : value) : option (tensor bool) :=
  match v with VBool t => Some t | _ => None end.

Definition read_float (l : loc) : M (tensor F) := v ← read l; lift (as_float v).
Definition read_long (l : loc) : M (tensor Z) := v ← read l; lift (as_long v).
Definition read_bool (l : loc) : M (tensor bool) := v ← read l; lift (as_bool v).

(** *** Tensor methods on stored objects *)

(** [t.lt(c)] *)
Definition lt_ (t : loc) (c : F) : M loc :=
  x ← read_float t; alloc (VBool (lt_scalar x c)).

(** [t.ge(c)] on an integer tensor *)
Definition ge_ (t : loc) (c : Z) : M loc :=
  x ← read_long t; alloc (VBool (ge_scalar x c)).

(** [a & b] *)
Definition and_ (a b : loc) : M loc :=
  x ← read_bool a; y ← read_bool b;
  r ← lift (logical_and x y);
  alloc (VBool r).

(** [t.long()] on a boolean tensor *)
Definition long_ (t : loc) : M loc :=
  x ← read_bool t; alloc (VLong (to_long x)).

(** [t.argmax(dim)] *)
Definition argmax_ (t : loc) (dim : Z) : M loc :=
  x ← read_float t; r ← lift (argmax dim x); alloc (VLong r).

(** [t.masked_fill_(mask, v)]: updates [t] in place and returns it. *)
Definition masked_fill_ (t mask : loc) (v : Z) : M loc :=
  x ← read_long t; m ← read_bool mask;
  r ← lift (masked_fill x m v);
  write t (VLong r);; mret t.

(** [t[mask]] *)
Definition getitem_float (t mask : loc) : M loc :=
  x ← read_float t; m ← read_bool mask;
  r ← lift (masked_select x m);
  alloc (VFloat r).

Definition getitem_long (t mask : loc) : M loc :=
  x ← read_long t; m ← read_bool mask;
  r ← lift (masked_select x m);
  alloc (VLong r).

(** [c * t] for a Python number [c] *)
Definition rmul_ (c : F) (t : loc) : M loc :=
  x ← read_float t; alloc (VFloat (mul_scalar c x)).

(** [a + b] *)
Definition add_ (a b : loc) : M loc :=
  x ← read_float a; y ← read_float b;
  r ← lift (add x y);
  alloc (VFloat r).

(** ** [VISemanticRoleLabelingModel.decode] *)

(** [return s_label.argmax(-1).masked_fill_(s_egde.lt(0.5), -1)] *)
Definition decode (s_egde s_label : loc) : M loc :=
  pred ← argmax_ s_label (-1);
  no_arc ← lt_ s_egde fhalf;
  masked_fill_ pred no_arc (-1).

(** ** [VISemanticRoleLabelingModel.loss] *)

Section Loss.

(** The attributes of the model that [loss] uses.  [inference] is the
    configured engine called with a target: it returns the locations of its
    loss and of the marginals.  [cross_entropy] is the library's
    [nn.CrossEntropyLoss()].  [interpolation] is [self.args.interpolation]. *)
Variable inference : loc * loc * loc * loc -> loc -> loc -> M (loc * loc).
Variable cross_entropy : tensor F -> tensor Z -> option (tensor F).
Variable interpolation : F.

Definition criterion (input target : loc) : M loc :=
  x ← read_float input; y ← read_long target;
  r ← lift (cross_entropy x y);
  alloc (VFloat r).

(** [edge_mask = labels.ge(0) & mask] *)
Definition loss_edge_mask (labels mask : loc) : M loc :=
  known ← ge_ labels 0;
  and_ known mask.

Definition loss (s_egde s_sib s_cop s_grd s_label labels mask : loc)
    : M (loc * loc) :=
  edge_mask ← loss_edge_mask labels mask;
  target ← long_ edge_mask;
  '(edge_loss, marginals) ← inference (s_egde, s_sib, s_cop, s_grd) mask target;
  input ← getitem_float s_label edge_mask;
  gold ← getitem_long labels edge_mask;
  label_loss ← criterion input gold;
  weighted_label ← rmul_ interpolation label_loss;
  weighted_edge ← rmul_ (fsub fone interpolation) edge_loss;
  loss ← add_ weighted_label weighted_edge;
  mret (loss, marginals).

End Loss.

(** ** The arc mask of [VISemanticDependencyParser._train] and [._predict] *)

(** [mask = batch.mask]
    [mask = mask.unsqueeze(1) & mask.unsqueeze(2)]
    [mask[:, 0] = 0]
    The two [unsqueeze] views are read at once and not kept. *)
Definition arc_mask (batch_mask : loc) : M loc :=
  tok ← read_bool batch_mask;
  row ← lift (unsqueeze 1 tok);
  col ← lift (unsqueeze 2 tok);
  both ← lift (logical_and row col);
  mask ← alloc (VBool both);
  m ← read_bool mask;
  m0 ← lift (setitem_col0 m false);
  write mask (VBool m0);;
  mret mask.

(** The body of the loop of [_train] and of [_predict] for one batch: the
    three statements of [arc_mask], then the rest of the body, which calls
    the model, its loss or its inference engine, and [decode], with the mask.
    The model class of the parser is outside the sources, so the rest of the
    body is a parameter. *)
Definition with_arc_mask {A} (batch_mask : loc) (rest : loc -> M A) : M A :=
  mask ← arc_mask batch_mask;
  rest mask.

End Store.

(** The tensor that [arc_mask] builds from a token mask of shape [B, n]. *)
Definition arc_mask_of (tok : tensor bool) (B n : nat) : tensor bool :=
  Tensor [B; n; n] (fun idx =>
    match idx with
    | _ :: 0 :: _ => false
    | _ =>
        elem tok (delete 1 (bidx [B; 1; n] idx)) &&
        elem tok (delete 2 (bidx [B; n; 1] idx))
    end).

(** ** The contract of the inference engine

    The engine classes live in [supar.structs], outside the sources; [loss]
    takes the configured engine as a parameter, and what follows is what the
    specification promises about it. *)

Section Contract.
Context `{Scalar}.

(** Every object of [s] is an object of [s'] with the same contents. *)
Definition extends (s s' : list value) : Prop :=
  forall l v, s !! l = Some v -> s' !! l = Some v.

(** [l] is an object of [s'] that [s] did not have. *)
Definition fresh_in (s s' : list value) (l : loc) : Prop :=
  length s <= l < length s'.

(** Modelled from the spec: the engine of [supar.structs], absent from the
    sources, "treats every input as read-only and returns newly allocated
    outputs". *)
Definition read_only
    (inference : loc * loc * loc * loc -> loc -> loc -> M (loc * loc)) : Prop :=
  forall scores mask target s s' edge_loss marginals,
    inference scores mask target s = Some (s', (edge_loss, marginals)) ->
    extends s s' /\ fresh_in s s' edge_loss /\ fresh_in s s' marginals.

(** Modelled from the spec: the engine of [supar.structs], absent from the
    sources, "is a pure function of its inputs: no hidden state": called in
    two stores on arguments with the same contents, it fails in both or
    returns results with the same contents. *)
Definition pure_function
    (inference : loc * loc * loc * loc -> loc -> loc -> M (loc * loc)) : Prop :=
  forall s1 s2 e1 sib1 cop1 grd1 m1 t1 e2 sib2 cop2 grd2 m2 t2,
    s1 !! e1 = s2 !! e2 -> s1 !! sib1 = s2 !! sib2 ->
    s1 !! cop1 = s2 !! cop2 -> s1 !! grd1 = s2 !! grd2 ->
    s1 !! m1 = s2 !! m2 -> s1 !! t1 = s2 !! t2 ->
    match inference (e1, sib1, cop1, grd1) m1 t1 s1,
          inference (e2, sib2, cop2, grd2) m2 t2 s2 with
    | Some (s1', (l1, q1)), Some (s2', (l2, q2)) =>
        s1' !! l1 = s2' !! l2 /\ s1' !! q1 = s2' !! q2
    | None, None => True
    | _, _ => False
    end.

(** Two outcomes agree when both are failures, or both are results related
    by [rel]. *)
Definition agree {A} (rel : list value * A -> list value * A -> Prop)
    (o1 o2 : option (list value * A)) : Prop :=
  match o1, o2 with
  | Some r1, Some r2 => rel r1 r2
  | None, None => True
  | _, _ => False
  end.

(** The objects returned in two stores exist and have the same contents. *)
Definition same_object (r1 r2 : list value * loc) : Prop :=
  is_Some (r1.1 !! r1.2) /\ r1.1 !! r1.2 = r2.1 !! r2.2.

Definition same_objects (r1 r2 : list value * (loc * loc)) : Prop :=
  same_object (fst r1, fst (snd r1)) (fst r2, fst (snd r2)) /\
  same_object (fst r1, snd (snd r1)) (fst r2, snd (snd r2)).

End Contract.

(** ** The inference engine *)

Module Engine.

Inductive strategy := MFVI | LBP.

(** [self.inference = (MFVISemanticRoleLabeling if inference == 'mfvi'
                       else LBPSemanticRoleLabeling)(max_iter)]:
    every name other than ['mfvi'] configures loopy belief propagation. *)
Definition select (inference : string) : strategy :=
  if String.eqb inference "mfvi" then MFVI else LBP.

Section Strategies.
Context `{Scalar}.

(** The logistic function of the floating format. *)
Variable sigmoid : F -> F.

(** The arithmetic of one round of loopy belief propagation, which the
    specification describes in words only: the message state, its initial
    value, the synchronous recomputation of every message, and the sum of the
    factor-to-variable messages that reach each arc. *)
Variable messages : Type.
Variable lbp_init : tensor F -> messages.
Variable lbp_round :
  tensor F -> tensor F -> tensor F -> tensor F -> tensor bool ->
  messages -> messages.
Variable lbp_incoming : messages -> tensor F.

(** Modelled from the spec: the masking of the engine of [supar.structs],
    absent from the sources; a marginal where the mask is false is reported
    as 0. *)
Definition under_mask (mask : tensor bool) (q : tensor F) : tensor F :=
  Tensor (shape q) (fun idx => if elem mask idx then elem q idx else fzero).

(** Modelled from the spec: "every other position [k]" of a triplet on the
    arc [(i, j)], for the engine of [supar.structs], absent from the
    sources. *)
Definition others (n i j : nat) : list nat :=
  filter (fun k => k ≠ i ∧ k ≠ j) (seq 0 n).

(** Modelled from the spec: the mean-field update of section 4.2.1, which
    belongs to the engine classes of [supar.structs], absent from the
    sources.  The updated log-odds of arc [(i, j)] are its unary potential
    plus the sibling, co-parent and two grandparent contributions summed over
    every other position [k]; the new belief is their logistic. *)
Definition mfvi_update (n : nat) (u sib cop grd q : tensor F) : tensor F :=
  Tensor [n; n] (fun idx =>
    match idx with
    | [i; j] =>
        sigmoid (fadd (elem u [i; j]) (fsum ((fun k =>
          fadd (fadd (fmul (elem q [i; k]) (elem sib [i; j; k]))
                     (fmul (elem q [k; j]) (elem cop [i; j; k])))
               (fadd (fmul (elem q [j; k]) (elem grd [i; j; k]))
                     (fmul (elem q [k; i]) (elem grd [k; i; j]))))
          <$> others n i j)))
    | _ => fzero
    end).

(** Modelled from the spec: the per-iteration marginals of the mean-field
    strategy, each re-masked, starting from the belief [q]. *)
Fixpoint mfvi_rounds (n : nat) (u sib cop grd : tensor F)
    (mask : tensor bool) (t : nat) (q : tensor F) : list (tensor F) :=
  match t with
  | 0 => []
  | S t' =>
      let q' := under_mask mask (mfvi_update n u sib cop grd q) in
      q' :: mfvi_rounds n u sib cop grd mask t' q'
  end.

(** Modelled from the spec: the per-iteration beliefs of loopy belief
    propagation (section 4.2.2): after each synchronous round the belief of an
    arc is the logistic of its unary potential plus the incoming messages. *)
Fixpoint lbp_rounds (u sib cop grd : tensor F) (mask : tensor bool)
    (t : nat) (m : messages) : list (tensor F) :=
  match t with
  | 0 => []
  | S t' =>
      let m' := lbp_round u sib cop grd mask m in
      under_mask mask
        (Tensor (shape u) (fun idx =>
           sigmoid (fadd (elem u idx) (elem (lbp_incoming m') idx))))
      :: lbp_rounds u sib cop grd mask t' m'
  end.

(** Modelled from the spec: the common contract of section 4.2,
    [infer(u, sib, cop, grd, mask, max_iter) -> (marginals, trace)], of the
    engine classes of [supar.structs], absent from the sources.  A shape
    mismatch and a negative [max_iter] are rejected.  The trace holds the
    marginals of every iteration, and the closed-form unary-only marginals
    alone when [max_iter = 0]; the marginals returned are the last of the
    trace. *)
Definition infer (s : strategy) (u sib cop grd : tensor F)
    (mask : tensor bool) (max_iter : Z) : option (tensor F * list (tensor F)) :=
  match shape u with
  | [n; m] =>
      if decide (n = m ∧ shape sib = [n; n; n] ∧ shape cop = [n; n; n] ∧
                 shape grd = [n; n; n] ∧ shape mask = [n; n] ∧
                 (0 <= max_iter)%Z)
      then
        let q0 := under_mask mask (pointwise sigmoid u) in
        let trace :=
          match Z.to_nat max_iter with
          | 0 => [q0]
          | t =>
              match s with
              | MFVI => mfvi_rounds n u sib cop grd mask t q0
              | LBP => lbp_rounds u sib cop grd mask t (lbp_init u)
              end
          end in
        Some (List.last trace q0, trace)
      else None
  | _ => None
  end.

End Strategies.
End Engine.

(** ** The charts of the parser

    What [_train], [_evaluate] and [_predict] of the parsers do with the
    chart of labels that [decode] returns. *)

(** [~mask] *)
Definition logical_not (t : tensor bool) : tensor bool := pointwise negb t.

(** [t.masked_fill(mask, v)]: a new tensor; [t] and [mask] are broadcast
    together. *)
Definition masked_fill_new {A} (t : tensor A) (mask : tensor bool) (v : A)
    : option (tensor A) :=
  pointwise2 (fun x (m : bool) => if m then v else x) t mask.

(** A bound of the Python slice [start:stop] of a dimension of size [n]: a
    negative bound counts from the end, and the bound is clamped to
    [0 .. n]. *)
Definition slice_bound (n : nat) (z : Z) : nat :=
  Z.to_nat (if (z <? 0)%Z then Z.max 0 (z + Z.of_nat n)
            else Z.min z (Z.of_nat n)).

(** The positions that [start:stop] selects, in order. *)
Definition slice (n : nat) (start stop : Z) : list nat :=
  seq (slice_bound n start) (slice_bound n stop - slice_bound n start).

(** [self.LABEL.vocab[i] if i >= 0 else None], where [vocab] is the list of
    the labels of the vocabulary by index.  The outer option is the outcome:
    an index beyond the vocabulary raises [IndexError]. *)
Definition label_of (vocab : list string) (i : Z) : option (option string) :=
  if (0 <=? i)%Z then Some <$> vocab !! Z.to_nat i else Some None.

(** [[[self.LABEL.vocab[i] if i >= 0 else None for i in row]
      for row in chart[1:i, :i].tolist()]]:
    the argument of [CoNLL.build_relations] for one sentence.  A chart with
    fewer than two dimensions cannot be sliced twice; in one with more, the
    entries of a row are lists, which [i >= 0] refuses as soon as there is
    one. *)
Definition relation_rows (vocab : list string) (chart : tensor Z) (i : Z)
    : option (list (list (option string))) :=
  match shape chart with
  | [n; m] =>
      mapM (fun r => mapM (fun c => label_of vocab (elem chart [r; c]))
                          (slice m 0 i))
           (slice n 1 i)
  | n :: m :: _ =>
      match slice n 1 i, slice m 0 i with
      | _ :: _, _ :: _ => None
      | rows, _ => Some (replicate (length rows) [])
      end
  | _ => None
  end.

(** The entries of a tensor along its first dimension, as iterating over it
    yields them; a tensor without dimensions cannot be iterated. *)
Definition select0 {A} (t : tensor A) (b : nat) : tensor A :=
  Tensor (tail (shape t)) (fun idx => elem t (b :: idx)).

Definition unbind0 {A} (t : tensor A) : option (list (tensor A)) :=
  match shape t with
  | [] => None
  | B :: _ => Some (select0 t <$> seq 0 B)
  end.

(** [lens = (batch.lens - 1).tolist()], from the lengths [batch.lens] of the
    sentences of the batch (the class of the batch is outside the
    sources). *)
Definition predict_lens (batch_lens : list Z) : list Z :=
  (fun len => (len - 1)%Z) <$> batch_lens.

(** [[... for i, chart in zip(lens, label_preds)]]: the arguments of
    [CoNLL.build_relations], sentence by sentence. *)
Definition predict_relations (vocab : list string) (lens : list Z)
    (label_preds : tensor Z) : option (list (list (list (option string)))) :=
  charts ← unbind0 label_preds;
  mapM (fun '(i, chart) => relation_rows vocab chart i) (zip lens charts).

Section Charts.
Context `{Scalar}.

(** [~mask] on a stored object *)
Definition invert_ (t : loc) : M loc :=
  x ← read_bool t; alloc (VBool (logical_not x)).

(** [t.masked_fill(mask, v)] on stored objects: [t] is left as it is. *)
Definition masked_fill_long (t mask : loc) (v : Z) : M loc :=
  x ← read_long t; m ← read_bool mask;
  r ← lift (masked_fill_new x m v);
  alloc (VLong r).

(** [chart.masked_fill(~mask, -1)] *)
Definition outside_mask (chart mask : loc) : M loc :=
  hidden ← invert_ mask;
  masked_fill_long chart hidden (-1).

(** The two charts that [_train] and [_evaluate] hand to the metric:
    [ChartMetric(loss, label_preds.masked_fill(~mask, -1),
                 labels.masked_fill(~mask, -1))] *)
Definition metric_charts (label_preds labels mask : loc) : M (loc * loc) :=
  preds ← outside_mask label_preds mask;
  gold ← outside_mask labels mask;
  mret (preds, gold).

Section Predict.

(** [network] is the call [self.model(words, feats)] on the batch, which
    returns the locations of the five score tensors; [marginals_of] is the
    engine called without a target, which returns the location of the
    marginals.  [vocab] is the label vocabulary and [lens] the list
    [(batch.lens - 1).tolist()]. *)
Variable network : M (loc * loc * loc * loc * loc).
Variable marginals_of : loc * loc * loc * loc -> loc -> M loc.
Variable vocab : list string.
Variable lens : list Z.

(** The body of the loop of [VISemanticDependencyParser._predict] up to
    [label_preds = self.model.decode(s_edge, s_label).masked_fill(~mask, -1)],
    with [decode] of the model above. *)
Definition predict_chart (batch_mask : loc) : M loc :=
  with_arc_mask batch_mask (fun mask =>
    '(s_edge, s_sib, s_cop, s_grd, s_label) ← network;
    s_edge ← marginals_of (s_edge, s_sib, s_cop, s_grd) mask;
    label_preds ← decode s_edge s_label;
    outside_mask label_preds mask).

(** The same body up to the arguments of [CoNLL.build_relations]. *)
Definition predict_labels (batch_mask : loc)
    : M (list (list (list (option string)))) :=
  label_preds ← predict_chart batch_mask;
  chart ← read_long label_preds;
  lift (predict_relations vocab lens chart).

End Predict.

End Charts.

(** ** Example data *)

(** A score tensor of the network for two tokens, with eight distinct
    entries. *)
Definition example_raw : tensor float :=
  of_list [1; 2; 2; 2] [1; 2; 3; 4; 5; 6; 7; 8]%float 0%float.

(** Edge marginals and label scores for one sentence of two positions and
    three labels. *)
Definition example_marginals : tensor float :=
  of_list [1; 2; 2] [0.875; 0.25; 0.5; 0.625]%float 0%float.

Definition example_label_scores : tensor float :=
  of_list [1; 2; 2; 3]
    [0.125; 0.75; 0.75;  0.5; 0.25; 0.125;  -1; -2; -3;  0; 0; 5]%float
    0%float.

(** One sentence: the root and one token, no padding. *)
Definition example_tok : tensor bool := of_list [1; 2] [true; true] false.

(** One sentence of three positions: the root, one token, one padding. *)
Definition example_tok_pad : tensor bool :=
  of_list [1; 3] [true; true; false] false.

(** Gold labels for the same sentence: one arc with label 2, no arc
    elsewhere; and its structural mask, as [arc_mask] builds it. *)
Definition example_labels : tensor Z :=
  of_list [1; 2; 2] [-1; -1; 2; -1]%Z 0%Z.

Definition example_mask : tensor bool :=
  of_list [1; 2; 2] [false; false; true; true] false.

(** ** An engine and a criterion to run [loss] on examples

    Stand-ins that need no exponential or logarithm: the engine performs no
    round of inference and squashes the edge scores by a clamped line, its
    loss is the squared error against the target; the criterion is minus the
    sum over the selected rows of the score of the gold label. *)

Section Examples.
Context `{Scalar}.

Definition clamped (x : F) : F :=
  let y := fadd fhalf (fmul (fmul fhalf fhalf) x) in
  if fltb y fzero then fzero else if fltb fone y then fone else y.

Definition unary_marginals (u : tensor F) (mask : tensor bool) : tensor F :=
  Tensor (shape u) (fun idx =>
    if elem mask idx then clamped (elem u idx) else fzero).

Definition squared_error (q : tensor F) (mask : tensor bool) (target : tensor Z)
    : tensor F :=
  Tensor [] (fun _ =>
    fsum ((fun idx =>
             if elem mask idx then
               let d := fsub (elem q idx)
                             (if (elem target idx =? 0)%Z then fzero else fone) in
               fmul d d
             else fzero) <$> indices (shape q))).

Definition unary_engine (scores : loc * loc * loc * loc) (mask target : loc)
    : M (loc * loc) :=
  u ← read_float scores.1.1.1;
  m ← read_bool mask;
  t ← read_long target;
  edge_loss ← alloc (VFloat (squared_error (unary_marginals u m) m t));
  marginals ← alloc (VFloat (unary_marginals u m));
  mret (edge_loss, marginals).

Definition gold_score (input : tensor F) (target : tensor Z)
    : option (tensor F) :=
  match shape input, shape target with
  | [k; _], [k'] =>
      if decide (k = k') then
        Some (Tensor [] (fun _ =>
          fsub fzero
            (fsum ((fun r => elem input [r; Z.to_nat (elem target [r])])
                   <$> seq 0 k))))
      else None
  | _, _ => None
  end.

End Examples.

(** Edge scores of the network for the same sentence. *)
Definition example_scores : tensor float :=
  of_list [1; 2; 2] [2; -1; 1; -4]%float 0%float.

(** Potentials of one sentence of two positions for the engine, which takes
    them without the batch dimension. *)
Definition example_unary : tensor float :=
  of_list [2; 2] [2; -1; 1; -4]%float 0%float.

Definition example_triplet : tensor float :=
  of_list [2; 2; 2] [1; 2; 3; 4; 5; 6; 7; 8]%float 0%float.

Definition example_arc_mask : tensor bool :=
  of_list [2; 2] [false; false; true; true] false.

(** ** The binary64 instance of the scalars *)

Module Binary64.

Lemma SFadd_comm p e x y : SFadd p e x y = SFadd p e y x.
Proof.
  destruct x as [sx|sx| |sx mx ex], y as [sy|sy| |sy my ey]; try reflexivity;
    try (destruct sx, sy; reflexivity).
  unfold SFadd. rewrite (Z.min_comm ex ey), Z.add_comm. reflexivity.
Qed.

Lemma add_comm (x y : float) : (x + y)%float = (y + x)%float.
Proof. apply Prim2SF_inj. rewrite !add_spec. apply SFadd_comm. Qed.

Lemma SFcompare_swap x y : SFcompare y x = option_map CompOpp (SFcompare x y).
Proof.
  destruct x as [sx|sx| |sx mx ex], y as [sy|sy| |sy my ey]; simpl;
    try reflexivity;
    try (destruct sx; reflexivity); try (destruct sy; reflexivity);
    try (destruct sx, sy; reflexivity).
  destruct sx, sy; simpl; try reflexivity;
    rewrite (Z.compare_antisym ey ex); destruct (ey ?= ex)%Z; simpl;
    try reflexivity;
    change (Pos.compare_cont Eq mx my) with (mx ?= my)%positive;
    change (Pos.compare_cont Eq my mx) with (my ?= mx)%positive;
    rewrite (Pos.compare_antisym my mx); destruct (my ?= mx)%positive;
    reflexivity.
Qed.

Lemma leb_not_ltb (x y : float) :
  (y <=? x)%float = true -> (x <? y)%float = false.
Proof.
  rewrite leb_spec, ltb_spec. unfold SFleb, SFltb.
  rewrite (SFcompare_swap (Prim2SF x) (Prim2SF y)).
  destruct (SFcompare (Prim2SF x) (Prim2SF y)) as [[]|]; simpl; congruence.
Qed.

(** The position of a spec float that is not a NaN in the order of the
    format, as a triple compared lexicographically. *)
Definition key (f : spec_float) : Z * Z * Z :=
  match f with
  | S754_infinity true => (-2, 0, 0)%Z
  | S754_finite true m e => (-1, - e, - Z.pos m)%Z
  | S754_zero _ | S754_nan => (0, 0, 0)%Z
  | S754_finite false m e => (1, e, Z.pos m)%Z
  | S754_infinity false => (2, 0, 0)%Z
  end.

Definition key_lt (a b : Z * Z * Z) : Prop :=
  (a.1.1 < b.1.1 \/
   (a.1.1 = b.1.1 /\ (a.1.2 < b.1.2 \/ (a.1.2 = b.1.2 /\ a.2 < b.2))))%Z.

Lemma SFcompare_Lt x y :
  SFcompare x y = Some Lt <->
  x <> S754_nan /\ y <> S754_nan /\ key_lt (key x) (key y).
Proof.
  unfold key_lt.
  destruct x as [sx|sx| |sx mx ex], y as [sy|sy| |sy my ey];
    try destruct sx; try destruct sy; cbn [SFcompare key fst snd];
    try (split; [try done; intros _; repeat split; try done; lia
                | intros (? & ? & ?); try done; try lia]).
  - change (Pos.compare_cont Eq mx my) with (mx ?= my)%positive.
    destruct (Z.compare_spec ex ey), (Pos.compare_spec mx my); cbn [CompOpp];
      split; try done; try (intros _; repeat split; try done; lia);
      intros (_ & _ & ?); lia.
  - change (Pos.compare_cont Eq mx my) with (mx ?= my)%positive.
    destruct (Z.compare_spec ex ey), (Pos.compare_spec mx my); cbn [CompOpp];
      split; try done; try (intros _; repeat split; try done; lia);
      intros (_ & _ & ?); lia.
Qed.

Lemma SFcompare_Eq x y :
  SFcompare x y = Some Eq <->
  x <> S754_nan /\ y <> S754_nan /\ key x = key y.
Proof.
  destruct x as [sx|sx| |sx mx ex], y as [sy|sy| |sy my ey];
    try destruct sx; try destruct sy; cbn [SFcompare key];
    try (split; [try done; intros _; repeat split; done
                | intros (? & ? & ?); try done]).
  - change (Pos.compare_cont Eq mx my) with (mx ?= my)%positive.
    destruct (Z.compare_spec ex ey), (Pos.compare_spec mx my); cbn [CompOpp];
      split; try done; try (intros _; repeat split; try done; congruence);
      intros (_ & _ & [= ? ?]); lia.
  - change (Pos.compare_cont Eq mx my) with (mx ?= my)%positive.
    destruct (Z.compare_spec ex ey), (Pos.compare_spec mx my); cbn [CompOpp];
      split; try done; try (intros _; repeat split; try done; congruence);
      intros (_ & _ & [= ? ?]); lia.
Qed.

Definition fkey (x : float) : Z * Z * Z := key (Prim2SF x).
Definition is_number (x : float) : Prop := Prim2SF x <> S754_nan.

Lemma ltb_true_iff (x y : float) :
  (x <? y)%float = true <->
  is_number x /\ is_number y /\ key_lt (fkey x) (fkey y).
Proof.
  rewrite FloatAxioms.ltb_spec. unfold SFltb, is_number, fkey.
  rewrite <- SFcompare_Lt.
  destruct (SFcompare (Prim2SF x) (Prim2SF y)) as [[]|]; split; done.
Qed.

Lemma eqb_true_iff (x y : float) :
  (x =? y)%float = true <-> is_number x /\ is_number y /\ fkey x = fkey y.
Proof.
  rewrite FloatAxioms.eqb_spec. unfold SFeqb, is_number, fkey.
  rewrite <- SFcompare_Eq.
  destruct (SFcompare (Prim2SF x) (Prim2SF y)) as [[]|]; split; done.
Qed.

Lemma eqb_refl_number (x : float) : (x =? x)%float = true <-> is_number x.
Proof. rewrite eqb_true_iff. tauto. Qed.

Lemma key_trichotomy (a b : Z * Z * Z) : key_lt a b \/ a = b \/ key_lt b a.
Proof.
  destruct a as [[a1 a2] a3], b as [[b1 b2] b3]. unfold key_lt. cbn [fst snd].
  destruct (Z.lt_trichotomy a1 b1) as [|[->|]]; [lia| |lia].
  destruct (Z.lt_trichotomy a2 b2) as [|[->|]]; [lia| |lia].
  destruct (Z.lt_trichotomy a3 b3) as [|[->|]]; [lia| |lia]. auto.
Qed.

Lemma key_lt_asym (a b : Z * Z * Z) : key_lt a b -> ~ key_lt b a.
Proof. unfold key_lt. lia. Qed.

Lemma key_lt_irrefl (a : Z * Z * Z) : ~ key_lt a a.
Proof. unfold key_lt. lia. Qed.

Lemma key_le_lt_trans (a b c : Z * Z * Z) :
  ~ key_lt a b -> key_lt a c -> key_lt b c.
Proof.
  intros Hab Hac. destruct (key_trichotomy a b) as [|[->|Hba]]; [done|done|].
  revert Hba Hac. unfold key_lt. lia.
Qed.

Lemma ltb_asym (x y : float) : (x <? y)%float = true -> (y <? x)%float = false.
Proof.
  intros (_ & _ & Hlt)%ltb_true_iff. apply not_true_is_false.
  intros (_ & _ & Hgt)%ltb_true_iff. by apply (key_lt_asym _ _ Hlt).
Qed.

Lemma eqb_not_ltb (x y : float) : (x =? y)%float = true -> (x <? y)%float = false.
Proof.
  intros (_ & _ & Heq)%eqb_true_iff. apply not_true_is_false.
  intros (_ & _ & Hlt)%ltb_true_iff. rewrite Heq in Hlt.
  by apply (key_lt_irrefl _ Hlt).
Qed.

Lemma ltb_total (x y : float) :
  (x =? x)%float = true -> (y =? y)%float = true ->
  (x =? y)%float = false -> (y <? x)%float = false -> (x <? y)%float = true.
Proof.
  intros Hx%eqb_refl_number Hy%eqb_refl_number Hne Hgt.
  apply ltb_true_iff. split; [done|]. split; [done|].
  destruct (key_trichotomy (fkey x) (fkey y)) as [|[Heq|Hlt]]; [done| |].
  - assert ((x =? y)%float = true) by (by apply eqb_true_iff). congruence.
  - assert ((y <? x)%float = true) by (by apply ltb_true_iff). congruence.
Qed.

Lemma leb_ltb_trans (x y z : float) :
  (y =? y)%float = true -> (x <? y)%float = false -> (x <? z)%float = true ->
  (y <? z)%float = true.
Proof.
  intros Hy%eqb_refl_number Hxy (Hx & Hz & Hxz)%ltb_true_iff.
  apply ltb_true_iff. split; [done|]. split; [done|].
  apply (key_le_lt_trans (fkey x)); [|done].
  intros Hlt. assert ((x <? y)%float = true) by (by apply ltb_true_iff).
  congruence.
Qed.

#[export] Instance scalar : Scalar := {|
  F := float;
  fzero := 0%float;
  fone := 1%float;
  fhalf := 0.5%float;
  fadd := PrimFloat.add;
  fsub := PrimFloat.sub;
  fmul := PrimFloat.mul;
  feqb := PrimFloat.eqb;
  fltb := PrimFloat.ltb;
  fleb := PrimFloat.leb;
  fadd_comm := add_comm;
  fleb_not_ltb := leb_not_ltb;
  fltb_asym := ltb_asym;
  feqb_not_ltb := eqb_not_ltb;
  fltb_total := ltb_total;
  fleb_ltb_trans := leb_ltb_trans
|}.

End Binary64.

Import Binary64.

(** ** Example stores *)

(** The store of a caller of [decode]: the marginals and the label scores. *)
Definition decode_store : list value :=
  [VFloat example_marginals; VFloat example_label_scores].

(** The store of a caller of [arc_mask]: the token mask of the batch. *)
Definition mask_store : list value := [VBool example_tok].

(** The store of a caller of [loss]: the edge scores, the three second-order
    scores, the label scores, the gold labels and the structural mask. *)
Definition loss_store : list value :=
  [VFloat example_scores; VFloat example_raw; VFloat example_raw;
   VFloat example_raw; VFloat example_label_scores; VLong example_labels;
   VBool example_mask].

(** The same objects behind an unrelated one, so that every location
    differs. *)
Definition shifted_store : list value := VBool example_tok :: loss_store.

(** Marginals and label scores of the same sentence with scores that are
    not numbers, and the store of a caller of [decode] that holds them. *)
Definition example_marginals_nan : tensor float :=
  of_list [1; 2; 2] [nan; 0.25; 0.5; 0.625]%float 0%float.

Definition example_label_scores_nan : tensor float :=
  of_list [1; 2; 2; 3]
    [0.125; nan; 0.75;  0.5; 0.25; 0.125;  -1; -2; -3;  nan; 0; nan]%float
    0%float.

Definition nan_store : list value :=
  [VFloat example_marginals_nan; VFloat example_label_scores_nan].

(** Label scores without any label for the same sentence, and the store of
    a caller of [decode] that holds them. *)
Definition example_no_labels : tensor float :=
  Tensor [1; 2; 2; 0] (fun _ => 0%float).

Definition no_labels_store : list value :=
  [VFloat example_marginals; VFloat example_no_labels].

(** Label scores as the label scorer returns them, [batch, label, dependent,
    head], for two labels. *)
Definition example_raw_labels : tensor float :=
  of_list [1; 2; 2; 2] [1; 2; 3; 4; 5; 6; 7; 8]%float 0%float.

(** A chart of predicted labels for the sentence of [example_labels], and
    the store of [_evaluate] before it calls the metric: the chart, the gold
    labels and the arc mask. *)
Definition example_preds : tensor Z :=
  of_list [1; 2; 2] [1; -1; 0; 2]%Z 0%Z.

Definition metric_store : list value :=
  [VLong example_preds; VLong example_labels; VBool example_mask].

(** The store of [_predict] at the start of a batch: the scores that the
    network is about to return, and the token mask of the batch.  The
    network below returns these scores; the engine below performs no round
    of inference. *)
Definition predict_store : list value :=
  [VFloat example_scores; VFloat example_raw; VFloat example_raw;
   VFloat example_raw; VFloat example_label_scores; VBool example_tok].

Definition example_network : M (loc * loc * loc * loc * loc) :=
  mret (0, 1, 2, 3, 4).

Definition unary_marginals_of (scores : loc * loc * loc * loc) (mask : loc)
    : M loc :=
  u ← read_float scores.1.1.1;
  m ← read_bool mask;
  alloc (VFloat (unary_marginals u m)).

(** The marginals that this engine returns for the example. *)
Definition example_predict_marginals : tensor float :=
  unary_marginals (H := scalar) example_scores (arc_mask_of example_tok 1 2).

Definition example_vocab : list string := ["ARG0"; "ARG1"; "ARG2"]%string.

(** The chart of one sentence with an index beyond [example_vocab]. *)
Definition example_chart : tensor Z := of_list [2; 2] [-1; -1; 0; 5]%Z 0%Z.

(** Gold labels of two sentences of three positions, the token mask of the
    batch, and a store that holds both. *)
Definition example_labels_batch : tensor Z := Tensor [2; 3; 3] (fun _ => 0%Z).

Definition example_tok_batch : tensor bool := Tensor [2; 3] (fun _ => true).

Definition token_mask_store : list value :=
  [VLong example_labels_batch; VBool example_tok_batch].

(** ** Facts about the tensor operations *)

Section TorchFacts.

Lemma in_bounds_length idx sh : in_bounds idx sh = true -> length idx = length sh.
Proof.
  revert sh; induction idx as [|i idx IH]; intros [|d sh]; simpl; try done.
  intros [_ Hr]%andb_true_iff. f_equal. by apply IH.
Qed.

Lemma in_bounds4 b x y z B n1 n2 n3 :
  in_bounds [b; x; y; z] [B; n1; n2; n3] = true <->
  b < B /\ x < n1 /\ y < n2 /\ z < n3.
Proof.
  simpl. rewrite !andb_true_iff, !Nat.ltb_lt. tauto.
Qed.

Lemma in_bounds3 b x y B n1 n2 :
  in_bounds [b; x; y] [B; n1; n2] = true <-> b < B /\ x < n1 /\ y < n2.
Proof.
  simpl. rewrite !andb_true_iff, !Nat.ltb_lt. tauto.
Qed.

Lemma broadcast_rev_same s : broadcast_rev s s = Some s.
Proof.
  induction s as [|a s IH]; simpl; [done|].
  rewrite Nat.eqb_refl. simpl. by rewrite IH.
Qed.

Lemma broadcast_shapes_same s : broadcast_shapes s s = Some s.
Proof.
  unfold broadcast_shapes. rewrite broadcast_rev_same. simpl.
  by rewrite reverse_involutive.
Qed.

Lemma bidx_in_bounds s idx : in_bounds idx s = true -> bidx s idx = idx.
Proof.
  intros Hb. unfold bidx.
  rewrite (in_bounds_length _ _ Hb), Nat.sub_diag, drop_0.
  revert s Hb; induction idx as [|i idx IH]; intros [|d s]; simpl; try done.
  intros [Hi Hr]%andb_true_iff. apply Nat.ltb_lt in Hi.
  rewrite (IH _ Hr). destruct (Nat.eqb_spec d 1); [f_equal; lia | done].
Qed.

Lemma get_in_bounds {A} (t : tensor A) idx :
  in_bounds idx (shape t) = true -> get t idx = Some (elem t idx).
Proof. unfold get. by intros ->. Qed.

Lemma pointwise2_same_shape {A B C} (f : A -> B -> C) t1 t2 :
  shape t2 = shape t1 ->
  exists t, pointwise2 f t1 t2 = Some t /\ shape t = shape t1 /\
    forall idx, in_bounds idx (shape t1) = true ->
      elem t idx = f (elem t1 idx) (elem t2 idx).
Proof.
  intros Hs. unfold pointwise2. rewrite Hs, broadcast_shapes_same. simpl.
  eexists; split; [done|]. split; [done|]. intros idx Hb. simpl.
  by rewrite bidx_in_bounds.
Qed.

Lemma indices_in_bounds sh idx : idx ∈ indices sh -> in_bounds idx sh = true.
Proof.
  revert idx. induction sh as [|d sh IH]; intros idx; cbn [indices].
  - by intros ->%list_elem_of_singleton.
  - intros (i & Hin & Hi%elem_of_seq)%list_elem_of_bind.
    apply list_elem_of_fmap in Hin as (idx' & -> & Hidx).
    cbn [in_bounds]. rewrite (IH _ Hidx), andb_true_r. apply Nat.ltb_lt. lia.
Qed.

Lemma filter_ext_in {A} (P Q : A -> Prop) `{!forall x, Decision (P x)}
    `{!forall x, Decision (Q x)} (l : list A) :
  (forall x, x ∈ l -> (P x <-> Q x)) -> filter P l = filter Q l.
Proof.
  induction l as [|a l IH]; intros Hext; [done|].
  rewrite !filter_cons, IH by (intros x Hx; apply Hext; by right).
  destruct (decide (P a)) as [Hp|Hp], (decide (Q a)) as [Hq|Hq]; try done;
    exfalso; apply (Hext a (list_elem_of_here _ _)) in Hp || apply Hp;
    try done; by apply (Hext a (list_elem_of_here _ _)).
Qed.

(** The mask of [loss] selects the positions with known gold inside the
    structural mask. *)
Lemma selected_known (ty : tensor Z) (tm em : tensor bool) :
  shape tm = shape ty -> logical_and (ge_scalar ty 0) tm = Some em ->
  shape em = shape ty /\ selected em = known_positions ty tm.
Proof.
  intros Hs Hand.
  destruct (pointwise2_same_shape andb (ge_scalar ty 0) tm)
    as (em' & Hand' & Hsh & Hel); [done|].
  unfold logical_and in Hand. rewrite Hand in Hand'. injection Hand' as <-.
  cbn [shape ge_scalar pointwise] in Hsh, Hel. split; [done|].
  unfold selected, known_positions. rewrite Hsh. apply filter_ext_in.
  intros idx Hin%indices_in_bounds. rewrite (Hel idx Hin).
  cbn [elem ge_scalar pointwise]. rewrite andb_true_iff, Z.leb_le. tauto.
Qed.

End TorchFacts.

(** ** The assembled potentials *)

Section ForwardFacts.
Context `{Scalar}.

(** The sum of the upper triangle and of the transposed strict upper
    triangle, entry by entry. *)
Lemma symmetrize_elem (t : tensor F) B n1 n :
  shape t = [B; n1; n; n] ->
  exists upper strict lower s,
    triu fzero 0 t = Some upper /\ triu fzero 1 t = Some strict /\
    transpose (-1) (-2) strict = Some lower /\ add upper lower = Some s /\
    shape s = [B; n1; n; n] /\
    forall b a r c, b < B -> a < n1 -> r < n -> c < n ->
      elem s [b; a; r; c] =
        fadd (if r <=? c then elem t [b; a; r; c] else fzero)
             (if c <? r then elem t [b; a; c; r] else fzero).
Proof.
  intros Hs. unfold triu, transpose. rewrite Hs. simpl.
  destruct (pointwise2_same_shape fadd
    (Tensor [B; n1; n; n] (fun idx =>
       match reverse idx with
       | c :: r :: _ =>
           if (0 <=? Z.of_nat c - Z.of_nat r)%Z then elem t idx else fzero
       | _ => fzero
       end))
    (Tensor (swap 3 2 [B; n1; n; n]) (fun idx =>
       match reverse (swap 3 2 idx) with
       | c :: r :: _ =>
           if (1 <=? Z.of_nat c - Z.of_nat r)%Z
           then elem t (swap 3 2 idx) else fzero
       | _ => fzero
       end))) as (s & Hadd & Hsh & Hel); [done|].
  eexists _, _, _, s. do 3 (split; [reflexivity|]).
  split; [exact Hadd|]. split; [exact Hsh|].
  intros b a r c Hb Ha Hr Hc. rewrite Hel by (apply in_bounds4; auto).
  cbn [elem]. change (reverse [b; a; r; c]) with [c; r; a; b].
  change (swap 3 2 [b; a; r; c]) with [b; a; c; r].
  change (reverse [b; a; c; r]) with [r; c; a; b]. cbn match.
  f_equal.
  - destruct (Nat.leb_spec r c), (Z.leb_spec 0 (Z.of_nat c - Z.of_nat r));
      try reflexivity; lia.
  - destruct (Nat.ltb_spec c r), (Z.leb_spec 1 (Z.of_nat r - Z.of_nat c));
      try reflexivity; lia.
Qed.

Lemma permute_0312 {A} (t : tensor A) B n1 n2 n3 :
  shape t = [B; n1; n2; n3] ->
  permute [0; 3; 1; 2] t =
    Some (Tensor [B; n3; n1; n2]
            (fun idx => elem t (scatter [0; 3; 1; 2] idx))).
Proof. intros Hs. unfold permute. rewrite Hs. reflexivity. Qed.

Lemma scatter_0312 b x y z : scatter [0; 3; 1; 2] [b; x; y; z] = [b; y; z; x].
Proof. reflexivity. Qed.

(** Every entry of the sibling scores in terms of the raw scores. *)
Lemma forward_sib_elem (raw : tensor F) B n :
  shape raw = [B; n; n; n] ->
  exists s_sib, forward_sib raw = Some s_sib /\ shape s_sib = [B; n; n; n] /\
    forall b x y z, b < B -> x < n -> y < n -> z < n ->
      elem s_sib [b; x; y; z] =
        fadd (if z <=? x then elem raw [b; y; z; x] else fzero)
             (if x <? z then elem raw [b; y; x; z] else fzero).
Proof.
  intros Hs. unfold forward_sib.
  destruct (symmetrize_elem raw B n n Hs)
    as (upper & strict & lower & s & -> & -> & Hl & Ha & Hsh & Hel).
  cbn [mbind option_bind]. rewrite Hl. cbn [mbind option_bind]. rewrite Ha.
  cbn [mbind option_bind]. rewrite (permute_0312 s B n n n Hsh).
  eexists; split; [reflexivity|]. split; [reflexivity|].
  intros b x y z Hb Hx Hy Hz. cbn [elem]. rewrite scatter_0312.
  by apply Hel.
Qed.

(** Every entry of the co-parent scores in terms of the raw scores. *)
Lemma forward_cop_elem (raw : tensor F) B n :
  shape raw = [B; n; n; n] ->
  exists s_cop, forward_cop raw = Some s_cop /\ shape s_cop = [B; n; n; n] /\
    forall b x y z, b < B -> x < n -> y < n -> z < n ->
      elem s_cop [b; x; y; z] =
        fadd (if y <=? z then elem raw [b; y; z; x] else fzero)
             (if z <? y then elem raw [b; z; y; x] else fzero).
Proof.
  intros Hs. unfold forward_cop. rewrite (permute_0312 raw B n n n Hs).
  cbn [mbind option_bind].
  destruct (symmetrize_elem
    (Tensor [B; n; n; n] (fun idx => elem raw (scatter [0; 3; 1; 2] idx)))
    B n n eq_refl)
    as (upper & strict & lower & s & -> & -> & Hl & Ha & Hsh & Hel).
  cbn [mbind option_bind]. rewrite Hl. cbn [mbind option_bind]. rewrite Ha.
  eexists; split; [reflexivity|]. split; [exact Hsh|].
  intros b x y z Hb Hx Hy Hz. rewrite Hel by done. cbn [elem].
  by rewrite !scatter_0312.
Qed.

End ForwardFacts.

Lemma get4 {A} (t : tensor A) B n1 n2 n3 b x y z :
  shape t = [B; n1; n2; n3] ->
  get t [b; x; y; z] =
    if decide (b < B /\ x < n1 /\ y < n2 /\ z < n3)
    then Some (elem t [b; x; y; z]) else None.
Proof.
  intros Hs. unfold get. rewrite Hs.
  destruct (in_bounds [b; x; y; z] [B; n1; n2; n3]) eqn:Hb.
  - apply in_bounds4 in Hb. by rewrite decide_True.
  - rewrite decide_False; [done|]. intros Hlt%in_bounds4. congruence.
Qed.

Section Symmetry.
Context `{Scalar}.

(** C1.  For every raw sibling score tensor of shape [batch, n, n, n], the
    sibling scores assembled by [forward] are equal, as values of the floating
    format, under exchange of the two dependents of a head [i]: the entry for
    dependents [j, k] is the entry for [k, j].  (The tensor is laid out as
    [batch, dependent, head, sibling], so the exchange is of its second and
    last axes.)  The scores are built from one triangular half of the raw
    tensor: where the sibling index is at most the dependent index the entry
    is the raw score of that half plus zero, and the other entries are zero
    plus the transposed raw score of the same half.  Only the raw scores on
    and above the diagonal reach the result: two raw tensors that agree
    there give the same sibling scores. *)
Theorem forward_sib_symmetric (raw : tensor F) (B n : nat) :
  shape raw = [B; n; n; n] ->
  exists s_sib, forward_sib raw = Some s_sib /\
    (forall b i j k, b < B -> i < n -> j < n -> k < n ->
       (k <= j ->
          sib_at s_sib b i j k = Some (fadd (elem raw [b; i; k; j]) fzero)) /\
       (j < k ->
          sib_at s_sib b i j k = Some (fadd fzero (elem raw [b; i; j; k])))) /\
    (forall b i j k, sib_at s_sib b i j k = sib_at s_sib b i k j) /\
    (forall raw', shape raw' = [B; n; n; n] ->
       (forall b h r c, r <= c -> elem raw' [b; h; r; c] = elem raw [b; h; r; c]) ->
       exists s_sib', forward_sib raw' = Some s_sib' /\
         forall b i j k, sib_at s_sib' b i j k = sib_at s_sib b i j k).
Proof.
  intros Hs. destruct (forward_sib_elem raw B n Hs) as (s & Hf & Hsh & Hel).
  exists s. split; [exact Hf|]. split.
  { intros b i j k Hb Hi Hj Hk. unfold sib_at.
    rewrite (get4 s B n n n) by done. rewrite decide_True by done.
    rewrite Hel by done.
    split; intros Hjk; destruct (Nat.leb_spec k j), (Nat.ltb_spec j k);
      try lia; reflexivity. }
  split.
  - intros b i j k. unfold sib_at. rewrite !(get4 s B n n n) by done.
    destruct (decide (b < B /\ j < n /\ i < n /\ k < n)) as [(Hb & Hj & Hi & Hk)|Hn].
    + rewrite decide_True by done. f_equal. rewrite !Hel by done.
      destruct (Nat.leb_spec k j), (Nat.ltb_spec j k),
        (Nat.leb_spec j k), (Nat.ltb_spec k j); try lia.
      * by replace k with j by lia.
      * apply fadd_comm.
      * apply fadd_comm.
    + rewrite decide_False; [done|]. tauto.
  - intros raw' Hs' Hup.
    destruct (forward_sib_elem raw' B n Hs') as (s' & Hf' & Hsh' & Hel').
    exists s'. split; [exact Hf'|]. intros b i j k. unfold sib_at.
    rewrite (get4 s' B n n n), (get4 s B n n n) by done.
    destruct (decide (b < B /\ j < n /\ i < n /\ k < n)) as [(Hb & Hj & Hi & Hk)|Hn];
      [|done].
    f_equal. rewrite Hel, Hel' by done.
    destruct (Nat.leb_spec k j), (Nat.ltb_spec j k); try lia;
      rewrite Hup by lia; reflexivity.
Qed.

(** C2.  For every raw co-parent score tensor of shape [batch, n, n, n], the
    co-parent scores assembled by [forward] are equal, as values of the
    floating format, under exchange of the two heads [i, k] of a dependent
    [j].  (The tensor is laid out as [batch, dependent, head, co-parent], so
    the exchange is of its last two axes.)  The equality holds by
    construction, one triangular half plus its transpose: where the head
    index is at most the co-parent index the entry is the raw score of that
    half plus zero, and the other entries are zero plus the transposed raw
    score of the same half.  After the permutation only the scores on and
    above the diagonal of the two head axes reach the result. *)
Theorem forward_cop_symmetric (raw : tensor F) (B n : nat) :
  shape raw = [B; n; n; n] ->
  exists s_cop, forward_cop raw = Some s_cop /\
    (forall b i j k, b < B -> i < n -> j < n -> k < n ->
       (i <= k ->
          cop_at s_cop b i j k = Some (fadd (elem raw [b; i; k; j]) fzero)) /\
       (k < i ->
          cop_at s_cop b i j k = Some (fadd fzero (elem raw [b; k; i; j])))) /\
    (forall b i j k, cop_at s_cop b i j k = cop_at s_cop b k j i) /\
    (forall raw', shape raw' = [B; n; n; n] ->
       (forall b h c d, h <= c -> elem raw' [b; h; c; d] = elem raw [b; h; c; d]) ->
       exists s_cop', forward_cop raw' = Some s_cop' /\
         forall b i j k, cop_at s_cop' b i j k = cop_at s_cop b i j k).
Proof.
  intros Hs. destruct (forward_cop_elem raw B n Hs) as (s & Hf & Hsh & Hel).
  exists s. split; [exact Hf|]. split.
  { intros b i j k Hb Hi Hj Hk. unfold cop_at.
    rewrite (get4 s B n n n) by done. rewrite decide_True by done.
    rewrite Hel by done.
    split; intros Hik; destruct (Nat.leb_spec i k), (Nat.ltb_spec k i);
      try lia; reflexivity. }
  split.
  - intros b i j k. unfold cop_at. rewrite !(get4 s B n n n) by done.
    destruct (decide (b < B /\ j < n /\ i < n /\ k < n)) as [(Hb & Hj & Hi & Hk)|Hn].
    + rewrite decide_True by done. f_equal. rewrite !Hel by done.
      destruct (Nat.leb_spec i k), (Nat.ltb_spec k i),
        (Nat.leb_spec k i), (Nat.ltb_spec i k); try lia.
      * by replace k with i by lia.
      * apply fadd_comm.
      * apply fadd_comm.
    + rewrite decide_False; [done|]. tauto.
  - intros raw' Hs' Hup.
    destruct (forward_cop_elem raw' B n Hs') as (s' & Hf' & Hsh' & Hel').
    exists s'. split; [exact Hf'|]. intros b i j k. unfold cop_at.
    rewrite (get4 s' B n n n), (get4 s B n n n) by done.
    destruct (decide (b < B /\ j < n /\ i < n /\ k < n)) as [(Hb & Hj & Hi & Hk)|Hn];
      [|done].
    f_equal. rewrite Hel, Hel' by done.
    destruct (Nat.leb_spec i k), (Nat.ltb_spec k i); try lia;
      rewrite Hup by lia; reflexivity.
Qed.

End Symmetry.

Lemma forward_sib_symmetric_witness :
  exists s_sib, forward_sib example_raw = Some s_sib /\
    (forall b i j k, b < 1 -> i < 2 -> j < 2 -> k < 2 ->
       (k <= j ->
          sib_at s_sib b i j k
          = Some (fadd (elem example_raw [b; i; k; j]) fzero)) /\
       (j < k ->
          sib_at s_sib b i j k
          = Some (fadd fzero (elem example_raw [b; i; j; k])))) /\
    (forall b i j k, sib_at s_sib b i j k = sib_at s_sib b i k j) /\
    (forall raw', shape raw' = [1; 2; 2; 2] ->
       (forall b h r c, r <= c ->
          elem raw' [b; h; r; c] = elem example_raw [b; h; r; c]) ->
       exists s_sib', forward_sib raw' = Some s_sib' /\
         forall b i j k, sib_at s_sib' b i j k = sib_at s_sib b i j k).
Proof. exact (forward_sib_symmetric example_raw 1 2 eq_refl). Defined.

Lemma forward_cop_symmetric_witness :
  exists s_cop, forward_cop example_raw = Some s_cop /\
    (forall b i j k, b < 1 -> i < 2 -> j < 2 -> k < 2 ->
       (i <= k ->
          cop_at s_cop b i j k
          = Some (fadd (elem example_raw [b; i; k; j]) fzero)) /\
       (k < i ->
          cop_at s_cop b i j k
          = Some (fadd fzero (elem example_raw [b; k; i; j])))) /\
    (forall b i j k, cop_at s_cop b i j k = cop_at s_cop b k j i) /\
    (forall raw', shape raw' = [1; 2; 2; 2] ->
       (forall b h c d, h <= c ->
          elem raw' [b; h; c; d] = elem example_raw [b; h; c; d]) ->
       exists s_cop', forward_cop raw' = Some s_cop' /\
         forall b i j k, cop_at s_cop' b i j k = cop_at s_cop b i j k).
Proof. exact (forward_cop_symmetric example_raw 1 2 eq_refl). Defined.

(** The assembled scores of the example, as nested lists flattened in
    row-major order: the raw entries 3 and 7 below the diagonal are gone. *)
Example forward_sib_example :
  tolist <$> forward_sib example_raw = Some [1; 2; 5; 6; 2; 4; 6; 8]%float.
Proof. vm_compute. reflexivity. Qed.

Example forward_cop_example :
  tolist <$> forward_cop example_raw = Some [1; 3; 3; 7; 2; 4; 4; 8]%float.
Proof. vm_compute. reflexivity. Qed.

(** The axes matter: the sibling scores are symmetric in the dependent and
    sibling axes, which are not adjacent; the entries that differ by an
    exchange of the head and sibling axes are unrelated. *)
Example forward_sib_layout :
  exists s_sib, forward_sib example_raw = Some s_sib /\
    get s_sib [0; 0; 0; 1] = Some 2%float /\
    get s_sib [0; 1; 0; 0] = Some 2%float /\
    get s_sib [0; 0; 1; 0] = Some 5%float.
Proof. eexists. split; [reflexivity|]. vm_compute. auto. Qed.

(** ** Running computations on the store *)

Section StoreFacts.
Context `{Scalar}.
Implicit Types s : list value.

Lemma bind_eq {A B} (m : M A) (k : A -> M B) s :
  (m ≫= k) s = match m s with Some (s', a) => k a s' | None => None end.
Proof. reflexivity. Qed.

Lemma read_float_eq l s :
  read_float l s = (s,.) <$> (s !! l ≫= as_float).
Proof.
  unfold read_float, read. rewrite bind_eq.
  destruct (s !! l) as [[]|]; reflexivity.
Qed.

Lemma read_long_eq l s :
  read_long l s = (s,.) <$> (s !! l ≫= as_long).
Proof.
  unfold read_long, read. rewrite bind_eq.
  destruct (s !! l) as [[]|]; reflexivity.
Qed.

Lemma read_bool_eq l s :
  read_bool l s = (s,.) <$> (s !! l ≫= as_bool).
Proof.
  unfold read_bool, read. rewrite bind_eq.
  destruct (s !! l) as [[]|]; reflexivity.
Qed.

Lemma bind_lift {A B} (o : option A) (k : A -> M B) s :
  (lift o ≫= k) s = match o with Some a => k a s | None => None end.
Proof. rewrite bind_eq. by destruct o. Qed.

Lemma bind_alloc {B} v (k : nat -> M B) s :
  (alloc v ≫= k) s = k (length s) (s ++ [v]).
Proof. reflexivity. Qed.

Lemma bind_write {B} l v (k : () -> M B) s :
  l < length s -> (write l v ≫= k) s = k () (<[l := v]> s).
Proof. intros Hl. rewrite bind_eq. unfold write. by rewrite decide_True. Qed.

Lemma bind_read_float {B} l t (k : tensor F -> M B) s :
  s !! l = Some (VFloat t) -> (read_float l ≫= k) s = k t s.
Proof. intros Hl. by rewrite bind_eq, read_float_eq, Hl. Qed.

Lemma bind_read_long {B} l t (k : tensor Z -> M B) s :
  s !! l = Some (VLong t) -> (read_long l ≫= k) s = k t s.
Proof. intros Hl. by rewrite bind_eq, read_long_eq, Hl. Qed.

Lemma bind_read_bool {B} l t (k : tensor bool -> M B) s :
  s !! l = Some (VBool t) -> (read_bool l ≫= k) s = k t s.
Proof. intros Hl. by rewrite bind_eq, read_bool_eq, Hl. Qed.

Lemma bind_assoc {A B C} (m : M A) (f : A -> M B) (g : B -> M C) s :
  ((m ≫= f) ≫= g) s = (m ≫= (fun a => f a ≫= g)) s.
Proof. rewrite !bind_eq. by destruct (m s) as [[s' a]|]. Qed.

Lemma lookup_alloc_old s v l x : s !! l = Some x -> (s ++ [v]) !! l = Some x.
Proof. intros Hl. by apply lookup_app_l_Some. Qed.

Lemma lookup_alloc_new s v : (s ++ [v]) !! length s = Some v.
Proof. by rewrite list_lookup_middle. Qed.

End StoreFacts.

Section DecodeFacts.
Context `{Scalar}.
Implicit Types s : list value.

Lemma as_float_alloc_long s (x : tensor Z) l :
  (s ++ [VLong x]) !! l ≫= as_float = s !! l ≫= as_float.
Proof.
  destruct (s !! l) as [v|] eqn:Hv.
  - by rewrite (lookup_alloc_old _ _ _ _ Hv).
  - apply lookup_ge_None in Hv. destruct (decide (l = length s)) as [->|Hne].
    + by rewrite lookup_alloc_new.
    + rewrite (proj2 (lookup_ge_None _ _)); [done|].
      rewrite length_app. simpl. lia.
Qed.

(** [decode] as one step on the store. *)
Lemma decode_eq (e l : loc) s :
  decode e l s =
    tl ← s !! l ≫= as_float;
    pred ← argmax (-1) tl;
    te ← s !! e ≫= as_float;
    out ← masked_fill pred (lt_scalar te fhalf) (-1)%Z;
    Some (s ++ [VLong out; VBool (lt_scalar te fhalf)], length s).
Proof.
  unfold decode, argmax_, lt_, masked_fill_.
  rewrite bind_eq, bind_eq, read_float_eq.
  destruct (s !! l ≫= as_float) as [tl|]; [|by cbn].
  cbn [fmap option_fmap option_map mbind option_bind].
  rewrite bind_eq. unfold lift at 1.
  destruct (argmax (-1) tl) as [pred|]; [|by cbn].
  cbn [fmap option_fmap option_map mbind option_bind]. unfold alloc at 1.
  rewrite bind_eq, bind_eq, read_float_eq, as_float_alloc_long.
  destruct (s !! e ≫= as_float) as [te|]; [|by cbn].
  cbn [fmap option_fmap option_map mbind option_bind]. unfold alloc at 1.
  rewrite length_app, <- (assoc_L (++)). cbn [app length].
  replace (length s + 1) with (S (length s)) by lia.
  assert ((s ++ [VLong pred; VBool (lt_scalar te fhalf)]) !! length s
          = Some (VLong pred)) as Hp by (by rewrite list_lookup_middle).
  assert ((s ++ [VLong pred; VBool (lt_scalar te fhalf)]) !! S (length s)
          = Some (VBool (lt_scalar te fhalf))) as Hm.
  { rewrite lookup_app_r by lia.
    by replace (S (length s) - length s) with 1 by lia. }
  rewrite bind_eq, read_long_eq, Hp.
  cbn [fmap option_fmap option_map mbind option_bind as_long].
  rewrite bind_eq, read_bool_eq, Hm.
  cbn [fmap option_fmap option_map mbind option_bind as_bool].
  rewrite bind_eq. unfold lift at 1.
  destruct (masked_fill pred (lt_scalar te fhalf) (-1)%Z) as [out|]; [|by cbn].
  cbn [fmap option_fmap option_map mbind option_bind].
  rewrite bind_eq. unfold write.
  rewrite decide_True by (rewrite length_app; simpl; lia).
  cbn [mret M_ret]. f_equal. f_equal.
  rewrite insert_app_r_alt by lia. by rewrite Nat.sub_diag.
Qed.

End DecodeFacts.

(** ** The decoder *)

Section Decoder.
Context `{Scalar}.
Implicit Types s : list value.

Lemma argmax_from_bound xs arg arg_i i :
  arg_i < i -> argmax_from arg arg_i i xs < i + length xs.
Proof.
  revert arg arg_i i. induction xs as [|x xs IH]; intros arg arg_i i Hlt; simpl.
  - lia.
  - destruct (greater_or_nan arg x arg_i i).
    + specialize (IH arg arg_i (S i)). lia.
    + specialize (IH x i (S i)). lia.
Qed.

Lemma argmax_row_bound xs : xs <> [] -> argmax_row xs < length xs.
Proof.
  destruct xs as [|x xs]; [done|]. intros _. simpl.
  pose proof (argmax_from_bound xs x 0 1). lia.
Qed.

Lemma lookup_alloc_new_snoc {A} (l : list A) x : (l ++ [x]) !! length l = Some x.
Proof. by rewrite list_lookup_middle. Qed.

Lemma greater_or_nan_numbers a b idx_a idx_b :
  feqb a a = true -> feqb b b = true -> idx_a < idx_b ->
  greater_or_nan a b idx_a idx_b = feqb a b || fltb b a.
Proof.
  intros Ha Hb Hlt. unfold greater_or_nan, fisnan. rewrite Ha. cbn [negb].
  destruct (feqb a b); [|done]. by apply Nat.ltb_lt.
Qed.

(** On a list without NaN, the reduction returns the first index of a
    maximal entry: no entry is greater, and every earlier entry is less. *)
Lemma argmax_from_first_maximal xs pre arg arg_i :
  Forall (fun x => feqb x x = true) (pre ++ xs) ->
  pre !! arg_i = Some arg ->
  (forall k x, pre !! k = Some x -> fltb arg x = false) ->
  (forall k x, k < arg_i -> pre !! k = Some x -> fltb x arg = true) ->
  first_maximal (pre ++ xs) (argmax_from arg arg_i (length pre) xs).
Proof.
  revert pre arg arg_i.
  induction xs as [|x xs IH]; intros pre arg arg_i Hnum Harg Hmax Hfirst.
  - cbn [argmax_from]. rewrite app_nil_r. by exists arg.
  - cbn [argmax_from].
    assert (arg_i < length pre) as Hlt by (by eapply lookup_lt_Some).
    assert (feqb arg arg = true) as Hnarg.
    { rewrite Forall_forall in Hnum. apply Hnum, elem_of_app. left.
      by eapply list_elem_of_lookup_2. }
    assert (feqb x x = true) as Hnx.
    { rewrite Forall_forall in Hnum. apply Hnum, elem_of_app. right. by left. }
    assert (forall y, y ∈ pre -> feqb y y = true) as Hnpre.
    { intros y Hy. rewrite Forall_forall in Hnum. apply Hnum, elem_of_app.
      by left. }
    rewrite (greater_or_nan_numbers arg x arg_i (length pre) Hnarg Hnx Hlt).
    replace (pre ++ x :: xs) with ((pre ++ [x]) ++ xs) in *
      by (by rewrite <- (assoc_L (++))).
    replace (S (length pre)) with (length (pre ++ [x]))
      by (rewrite length_app; simpl; lia).
    destruct (feqb arg x) eqn:Heq; [|destruct (fltb x arg) eqn:Hgt];
      cbn [orb].
    + apply IH; [done|by apply lookup_app_l_Some| |].
      * intros k y [[_ Hk]|[_ <-]]%lookup_snoc_Some; [by eapply Hmax|].
        by apply feqb_not_ltb.
      * intros k y Hk [[_ Hy]|[-> _]]%lookup_snoc_Some; [|lia].
        by eapply Hfirst.
    + apply IH; [done|by apply lookup_app_l_Some| |].
      * intros k y [[_ Hk]|[_ <-]]%lookup_snoc_Some; [by eapply Hmax|].
        by apply fltb_asym.
      * intros k y Hk [[_ Hy]|[-> _]]%lookup_snoc_Some; [|lia].
        by eapply Hfirst.
    + assert (fltb arg x = true) as Hlt' by (by apply fltb_total).
      assert (forall k y, pre !! k = Some y -> fltb y x = true) as Hbelow.
      { intros k y Hy. apply (fleb_ltb_trans arg); [|by eapply Hmax|done].
        by eapply Hnpre, list_elem_of_lookup_2. }
      apply IH; [done|by apply lookup_alloc_new_snoc| |].
      * intros k y [[_ Hk]|[_ <-]]%lookup_snoc_Some.
        -- by eapply fltb_asym, Hbelow.
        -- destruct (fltb x x) eqn:Hxx; [|done].
           pose proof (fltb_asym _ _ Hxx). congruence.
      * intros k y Hk [[_ Hy]|[-> _]]%lookup_snoc_Some; [|lia].
        by eapply Hbelow.
Qed.

Lemma argmax_row_first_maximal xs :
  xs <> [] -> Forall (fun x => feqb x x = true) xs ->
  first_maximal xs (argmax_row xs).
Proof.
  destruct xs as [|x xs]; [done|]. intros _ Hnum. cbn [argmax_row].
  apply (argmax_from_first_maximal xs [x] x 0); [done|done| |].
  - intros k y [-> <-]%list_lookup_singleton_Some.
    destruct (fltb x x) eqn:Hxx; [|done].
    pose proof (fltb_asym _ _ Hxx). congruence.
  - intros k y Hk. lia.
Qed.

Lemma fibre_length {A} (t : tensor A) d idx :
  length (fibre t d idx) = shape t !!! d.
Proof. unfold fibre. by rewrite length_fmap, length_seq. Qed.

Lemma norm_dim_last rank : norm_dim (S rank) (-1) = Some rank.
Proof.
  unfold norm_dim. simpl (0 <=? -1)%Z. cbv iota.
  destruct (Z.leb_spec (- Z.of_nat (S rank)) (-1)); [|lia].
  f_equal. lia.
Qed.

(** [t.argmax(-1)] on a tensor whose last dimension has size [L]. *)
Lemma argmax_last (t : tensor F) sh L :
  shape t = sh ++ [L] ->
  argmax (-1) t =
    if L =? 0 then None
    else Some (Tensor sh (fun idx =>
                 Z.of_nat (argmax_row (fibre t (length sh) idx)))).
Proof.
  intros Hs. unfold argmax. rewrite Hs.
  assert (length (sh ++ [L]) = S (length sh)) as Hl
    by (rewrite length_app; simpl; lia).
  rewrite Hl, norm_dim_last. cbn [mbind option_bind].
  assert ((sh ++ [L]) !!! length sh = L) as ->.
  { apply list_lookup_total_correct. by rewrite list_lookup_middle. }
  assert (delete (length sh) (sh ++ [L]) = sh) as ->.
  { clear. induction sh as [|a sh IH]; simpl; [done|]. by rewrite IH. }
  destruct sh; reflexivity.
Qed.

Lemma masked_fill_same_shape {A} (t : tensor A) (mask : tensor bool) v :
  shape mask = shape t ->
  masked_fill t mask v =
    Some (Tensor (shape t) (fun idx =>
            if elem mask (bidx (shape mask) idx) then v else elem t idx)).
Proof.
  intros Hs. unfold masked_fill. rewrite Hs, broadcast_shapes_same.
  cbn [mbind option_bind]. by rewrite decide_True.
Qed.

Lemma masked_fill_inv {A} (t : tensor A) (mask : tensor bool) v out :
  masked_fill t mask v = Some out ->
  shape out = shape t /\
  forall idx, elem out idx = v \/ elem out idx = elem t idx.
Proof.
  unfold masked_fill. intros Hm.
  destruct (broadcast_shapes (shape t) (shape mask)) as [sh|]; [|done].
  cbn [mbind option_bind] in Hm. destruct (decide (sh = shape t)); [|done].
  injection Hm as <-. split; [done|]. intros idx. cbn [elem].
  destruct (elem mask _); auto.
Qed.

(** The result of [decode] on well-shaped inputs. *)
Lemma decode_run (e l : loc) s te tl sh L :
  s !! e = Some (VFloat te) -> s !! l = Some (VFloat tl) ->
  shape te = sh -> shape tl = sh ++ [L] -> L <> 0 ->
  decode e l s =
    Some (s ++ [VLong (Tensor sh (fun idx =>
                  if fltb (elem te (bidx sh idx)) fhalf then (-1)%Z
                  else Z.of_nat (argmax_row (fibre tl (length sh) idx))));
                VBool (lt_scalar te fhalf)],
          length s).
Proof.
  intros He Hl Hse Hsl HL. rewrite decode_eq, Hl, He.
  cbn [mbind option_bind as_float].
  rewrite (argmax_last tl sh L Hsl).
  destruct (Nat.eqb_spec L 0); [done|]. cbn [mbind option_bind].
  rewrite masked_fill_same_shape by (cbn [shape lt_scalar pointwise]; done).
  cbn [mbind option_bind shape elem lt_scalar pointwise]. by rewrite Hse.
Qed.

(** C5.  On edge marginals of shape [batch, n, n] and label scores of shape
    [batch, n, n, n_labels] with at least one label, [decode] returns a new
    tensor of shape [batch, n, n] whose entry at [(i, j)] is the arg-max
    index of the label scores at [(i, j)] when the marginal is at least one
    half, and [-1] when the marginal is below one half.  The arg-max index is
    that of the library's reduction; where no label score is a NaN it is the
    first index of a maximal score.  The threshold is the constant one half
    of the floating format; [decode] takes no threshold. *)
Theorem decode_threshold (e l : loc) s te tl (B n L : nat) :
  s !! e = Some (VFloat te) -> s !! l = Some (VFloat tl) ->
  shape te = [B; n; n] -> shape tl = [B; n; n; L] -> L <> 0 ->
  exists s' p out,
    decode e l s = Some (s', p) /\ s' !! p = Some (VLong out) /\
    shape out = [B; n; n] /\
    forall b i j, b < B -> i < n -> j < n ->
      (fleb fhalf (elem te [b; i; j]) = true ->
         get out [b; i; j]
         = Some (Z.of_nat (argmax_row (label_scores tl [b; i; j])))) /\
      (fltb (elem te [b; i; j]) fhalf = true ->
         get out [b; i; j] = Some (-1)%Z) /\
      (Forall (fun x => fisnan x = false) (label_scores tl [b; i; j]) ->
         first_maximal (label_scores tl [b; i; j])
                       (argmax_row (label_scores tl [b; i; j]))).
Proof.
  intros He Hl Hse Hsl HL.
  rewrite (decode_run e l s te tl [B; n; n] L He Hl Hse Hsl HL).
  eexists _, _, _. split; [reflexivity|]. split.
  { by rewrite (list_lookup_middle s [_] _ (length s) eq_refl). }
  split; [reflexivity|]. intros b i j Hb Hi Hj.
  assert (in_bounds [b; i; j] [B; n; n] = true) as Hin by (by apply in_bounds3).
  rewrite get_in_bounds by exact Hin. cbn [elem].
  rewrite (bidx_in_bounds _ _ Hin). split; [|split].
  - intros Hge. by rewrite (fleb_not_ltb _ _ Hge).
  - by intros ->.
  - intros Hnum. apply argmax_row_first_maximal.
    + intros Hnil. apply (f_equal length) in Hnil.
      unfold label_scores in Hnil. rewrite fibre_length, Hsl in Hnil.
      cbn in Hnil. done.
    + eapply Forall_impl; [exact Hnum|]. intros x Hx. unfold fisnan in Hx.
      by destruct (feqb x x).
Qed.

(** C10.  Whenever [decode] returns, on label scores whose last dimension
    has size [n_labels], every entry of the returned tensor is [-1] or a
    label index in [0, n_labels). *)
Theorem decode_label_range (e l : loc) s s' p tl sh (n_labels : nat) :
  s !! l = Some (VFloat tl) -> shape tl = sh ++ [n_labels] ->
  decode e l s = Some (s', p) ->
  exists out, s' !! p = Some (VLong out) /\
    forall idx v, get out idx = Some v ->
      v = (-1)%Z \/ (0 <= v < Z.of_nat n_labels)%Z.
Proof.
  intros Hl Hsl. rewrite decode_eq, Hl. cbn [mbind option_bind as_float].
  rewrite (argmax_last tl sh n_labels Hsl).
  destruct (Nat.eqb_spec n_labels 0) as [|HL]; [done|].
  cbn [mbind option_bind].
  destruct (s !! e ≫= as_float) as [te|]; [|done]. cbn [mbind option_bind].
  destruct (masked_fill _ (lt_scalar te fhalf) (-1)%Z) as [out|] eqn:Hm; [|done].
  cbn [mbind option_bind]. intros [= <- <-]. exists out. split.
  { by rewrite (list_lookup_middle s [_] _ (length s) eq_refl). }
  intros idx v Hg. unfold get in Hg.
  destruct (in_bounds idx (shape out)); [|done]. injection Hg as <-.
  destruct (masked_fill_inv _ _ _ _ Hm) as [_ Hel].
  destruct (Hel idx) as [->| ->]; [by left|right]. cbn [elem].
  pose proof (argmax_row_bound (fibre tl (length sh) idx)) as Hb.
  rewrite fibre_length, Hsl in Hb.
  assert ((sh ++ [n_labels]) !!! length sh = n_labels) as Hn.
  { apply list_lookup_total_correct. by rewrite list_lookup_middle. }
  rewrite Hn in Hb. 
  assert (fibre tl (length sh) idx <> []) as Hne.
  { intros Hnil. apply (f_equal length) in Hnil.
    rewrite fibre_length, Hsl, Hn in Hnil. simpl in Hnil. done. }
  specialize (Hb Hne). lia.
Qed.

End Decoder.

(** ** The arc mask *)

Section ArcMask.
Context `{Scalar}.
Implicit Types s : list value.

Lemma broadcast_row_col B n : broadcast_shapes [B; 1; n] [B; n; 1] = Some [B; n; n].
Proof.
  unfold broadcast_shapes. change (reverse [B; 1; n]) with [n; 1; B].
  change (reverse [B; n; 1]) with [1; n; B]. cbn [broadcast_rev].
  rewrite Nat.eqb_refl.
  destruct (Nat.eqb_spec n 1) as [->|Hn]; [reflexivity|].
  destruct (Nat.eqb_spec 1 n) as [<-|_]; [done|]. reflexivity.
Qed.

Lemma bidx3 B n1 n2 b i j :
  bidx [B; n1; n2] [b; i; j] =
    [if B =? 1 then 0 else b; if n1 =? 1 then 0 else i; if n2 =? 1 then 0 else j].
Proof. reflexivity. Qed.

Lemma arc_mask_run (bm : loc) s tok B n :
  s !! bm = Some (VBool tok) -> shape tok = [B; n] -> n <> 0 ->
  arc_mask bm s = Some (s ++ [VBool (arc_mask_of tok B n)], length s).
Proof.
  intros Hl Hs Hn. unfold arc_mask.
  rewrite (bind_read_bool _ _ _ _ Hl).
  unfold unsqueeze, logical_and, pointwise2. rewrite Hs.
  cbn [length Nat.leb take drop app]. rewrite !bind_lift. cbn [shape].
  rewrite broadcast_row_col. cbn [mbind option_bind].
  rewrite bind_alloc, (bind_read_bool _ _ _ _ (lookup_alloc_new s _)).
  unfold setitem_col0. cbn [shape]. destruct (Nat.ltb_spec 0 n); [|lia].
  rewrite bind_lift, bind_write by (rewrite length_app; simpl; lia).
  cbn [mret M_ret]. f_equal. f_equal.
  rewrite insert_app_r_alt by lia. by rewrite Nat.sub_diag.
Qed.

Lemma arc_mask_of_elem tok B n b d h :
  b < B -> d < n -> h < n ->
  elem (arc_mask_of tok B n) [b; d; h] =
    negb (d =? 0) && elem tok [b; d] && elem tok [b; h].
Proof.
  intros Hb Hd Hh. cbn [arc_mask_of elem]. destruct d as [|d]; [done|].
  rewrite !bidx3. cbn [Nat.eqb negb andb delete list_delete].
  replace (if B =? 1 then 0 else b) with b
    by (destruct (Nat.eqb_spec B 1); lia).
  replace (if n =? 1 then 0 else h) with h
    by (destruct (Nat.eqb_spec n 1); lia).
  replace (if n =? 1 then 0 else S d) with (S d)
    by (destruct (Nat.eqb_spec n 1); lia).
  apply andb_comm.
Qed.

(** C3, as the code has it.  From a token mask of shape [batch, n] with
    [n > 0], the three statements that [_train] and [_predict] run first
    build a new mask of shape [batch, n, n], laid out as
    [batch, dependent, head], and leave the token mask as it was.  The new
    mask is true exactly where the dependent is not the root and both tokens
    are real: it is false at every position with the root as dependent and at
    every position where the dependent or the head is padding; a self-loop
    position of a real token other than the root is true.  Whatever the rest
    of the loop body computes, it runs once this mask is complete. *)
Theorem arc_mask_exclusions (bm : loc) s tok (B n : nat) :
  s !! bm = Some (VBool tok) -> shape tok = [B; n] -> n <> 0 ->
  exists s' mask m,
    arc_mask bm s = Some (s', mask) /\ s' !! mask = Some (VBool m) /\
    s' !! bm = Some (VBool tok) /\ shape m = [B; n; n] /\
    (forall A (rest : loc -> M A), with_arc_mask bm rest s = rest mask s') /\
    forall b d h, b < B -> d < n -> h < n ->
      get m [b; d; h]
        = Some (negb (d =? 0) && elem tok [b; d] && elem tok [b; h]) /\
      get m [b; 0; h] = Some false /\
      (elem tok [b; d] = false \/ elem tok [b; h] = false ->
         get m [b; d; h] = Some false) /\
      (d <> 0 -> elem tok [b; d] = true -> get m [b; d; d] = Some true).
Proof.
  intros Hl Hs Hn. pose proof (arc_mask_run bm s tok B n Hl Hs Hn) as Hrun.
  rewrite Hrun.
  eexists _, _, _. split; [reflexivity|]. split; [apply lookup_alloc_new|].
  split; [by apply lookup_alloc_old|]. split; [reflexivity|]. split.
  { intros A rest. unfold with_arc_mask. by rewrite bind_eq, Hrun. }
  intros b d h Hb Hd Hh.
  assert (forall x y, x < n -> y < n ->
            get (arc_mask_of tok B n) [b; x; y]
            = Some (negb (x =? 0) && elem tok [b; x] && elem tok [b; y])) as Hg.
  { intros x y Hx Hy. rewrite get_in_bounds by (by apply in_bounds3).
    by rewrite arc_mask_of_elem. }
  split; [by apply Hg|]. split; [rewrite Hg by lia; done|]. split.
  - rewrite Hg by done. intros [-> | ->]; f_equal;
      [by rewrite andb_false_r | apply andb_false_r].
  - intros Hd0 Ht. rewrite Hg, Ht by done.
    by destruct (Nat.eqb_spec d 0).
Qed.

End ArcMask.

Lemma decode_threshold_witness :
  exists s' p out,
    decode 0 1 decode_store = Some (s', p) /\ s' !! p = Some (VLong out) /\
    shape out = [1; 2; 2] /\
    forall b i j, b < 1 -> i < 2 -> j < 2 ->
      (fleb fhalf (elem example_marginals [b; i; j]) = true ->
         get out [b; i; j]
         = Some (Z.of_nat (argmax_row
                            (label_scores example_label_scores [b; i; j])))) /\
      (fltb (elem example_marginals [b; i; j]) fhalf = true ->
         get out [b; i; j] = Some (-1)%Z) /\
      (Forall (fun x => fisnan x = false)
              (label_scores example_label_scores [b; i; j]) ->
         first_maximal (label_scores example_label_scores [b; i; j])
           (argmax_row (label_scores example_label_scores [b; i; j]))).
Proof.
  exact (decode_threshold 0 1 decode_store example_marginals
           example_label_scores 1 2 3 eq_refl eq_refl eq_refl eq_refl
           (Nat.neq_succ_0 2)).
Defined.

Lemma decode_label_range_witness :
  exists s' p out,
    decode 0 1 decode_store = Some (s', p) /\ s' !! p = Some (VLong out) /\
    forall idx v, get out idx = Some v -> v = (-1)%Z \/ (0 <= v < 3)%Z.
Proof.
  eexists _, _. 
  refine (let Hrun := eq_refl : decode 0 1 decode_store = Some (_, _) in _).
  destruct (decode_label_range 0 1 decode_store _ _ example_label_scores
              [1; 2; 2] 3 eq_refl eq_refl Hrun) as (out & Hp & Hrange).
  exists out. split; [exact Hrun|]. split; [exact Hp| exact Hrange].
Defined.

(** The labels decoded on the example: the first maximal label where the
    marginal reaches one half, [-1] elsewhere. *)
Example decode_example :
  (r ← decode 0 1 decode_store; out ← r.1 !! r.2 ≫= as_long; Some (tolist out))
  = Some [1; -1; 0; 2]%Z.
Proof. vm_compute. reflexivity. Qed.

(** The library's arg-max on ties and on NaN: the first of two equal
    maxima, and the first NaN whatever the other entries. *)
Example argmax_row_tie : argmax_row [0.125; 0.75; 0.75]%float = 1.
Proof. reflexivity. Qed.

Example argmax_row_nan : argmax_row [1; nan; 2; nan]%float = 1.
Proof. reflexivity. Qed.

Lemma arc_mask_exclusions_witness :
  exists s' mask m,
    arc_mask 0 mask_store = Some (s', mask) /\ s' !! mask = Some (VBool m) /\
    s' !! 0 = Some (VBool example_tok) /\ shape m = [1; 2; 2] /\
    (forall A (rest : loc -> M A),
       with_arc_mask 0 rest mask_store = rest mask s') /\
    forall b d h, b < 1 -> d < 2 -> h < 2 ->
      get m [b; d; h]
        = Some (negb (d =? 0) && elem example_tok [b; d] && elem example_tok [b; h]) /\
      get m [b; 0; h] = Some false /\
      (elem example_tok [b; d] = false \/ elem example_tok [b; h] = false ->
         get m [b; d; h] = Some false) /\
      (d <> 0 -> elem example_tok [b; d] = true -> get m [b; d; d] = Some true).
Proof.
  exact (arc_mask_exclusions 0 mask_store example_tok 1 2 eq_refl eq_refl
           (Nat.neq_succ_0 1)).
Defined.

(** C3 as the specification states it does not hold: the mask is not false
    at every self-loop position.  For the root and one real token, the
    position whose dependent and head are both that token is true. *)
Lemma arc_mask_self_loop :
  exists s' mask m,
    arc_mask 0 mask_store = Some (s', mask) /\ s' !! mask = Some (VBool m) /\
    get m [0; 1; 1] = Some true.
Proof. eexists _, _, _. split; [reflexivity|]. split; reflexivity. Qed.

(** With a padding position, the mask of the sentence as rows of heads, one
    row per dependent. *)
Example arc_mask_example :
  (r ← arc_mask 0 [VBool example_tok_pad];
   m ← r.1 !! r.2 ≫= as_bool; Some (tolist m))
  = Some [false; false; false;  true; true; false;  false; false; false].
Proof. vm_compute. reflexivity. Qed.

(** ** The training loss *)

Section EdgeMask.
Context `{Scalar}.
Implicit Types s : list value.

Lemma loss_edge_mask_eq (labels mask : loc) s ty tm :
  s !! labels = Some (VLong ty) -> s !! mask = Some (VBool tm) ->
  loss_edge_mask labels mask s =
    em ← logical_and (ge_scalar ty 0) tm;
    Some (s ++ [VBool (ge_scalar ty 0); VBool em], S (length s)).
Proof.
  intros Hy Hm. unfold loss_edge_mask, ge_, and_.
  rewrite bind_assoc, (bind_read_long _ _ _ _ Hy), bind_alloc.
  rewrite (bind_read_bool _ _ _ _ (lookup_alloc_new s _)).
  rewrite (bind_read_bool _ _ _ _ (lookup_alloc_old _ _ _ _ Hm)).
  rewrite bind_lift. destruct (logical_and (ge_scalar ty 0) tm) as [em|]; [|done].
  cbn [mbind option_bind]. unfold alloc. rewrite <- (assoc_L (++)).
  rewrite length_app. cbn [app length]. do 2 f_equal. lia.
Qed.

(** C6.  In [loss], on gold labels and a structural mask of one shape, the
    mask [edge_mask] is a new boolean tensor of that shape which is true at a
    position exactly when the gold label there is at least 0 and the
    structural mask is true there. *)
Theorem loss_edge_mask_exact (labels mask : loc) s ty tm sh :
  s !! labels = Some (VLong ty) -> s !! mask = Some (VBool tm) ->
  shape ty = sh -> shape tm = sh ->
  exists s' edge_mask em,
    loss_edge_mask labels mask s = Some (s', edge_mask) /\
    s' !! edge_mask = Some (VBool em) /\ fresh_in s s' edge_mask /\
    shape em = sh /\
    forall idx, in_bounds idx sh = true ->
      (elem em idx = true <-> (0 <= elem ty idx)%Z /\ elem tm idx = true).
Proof.
  intros Hy Hm Hsy Hsm. rewrite (loss_edge_mask_eq labels mask s ty tm Hy Hm).
  destruct (pointwise2_same_shape andb (ge_scalar ty 0) tm)
    as (em & Hand & Hsh & Hel); [by rewrite Hsm|].
  unfold logical_and. rewrite Hand. cbn [mbind option_bind].
  exists (s ++ [VBool (ge_scalar ty 0); VBool em]), (S (length s)), em.
  split; [done|]. split.
  { rewrite lookup_app_r by lia.
    by replace (S (length s) - length s) with 1 by lia. }
  split; [unfold fresh_in; rewrite length_app; simpl; lia|].
  split; [by rewrite Hsh|]. intros idx Hin.
  rewrite Hel by (cbn [shape ge_scalar pointwise]; by rewrite Hsy).
  cbn [elem ge_scalar pointwise]. rewrite andb_true_iff, Z.leb_le. tauto.
Qed.

Lemma add_scalars (a b : tensor F) :
  shape a = [] -> shape b = [] ->
  exists out, add a b = Some out /\ shape out = [] /\
    elem out [] = fadd (elem a []) (elem b []).
Proof.
  intros Ha Hb.
  destruct (pointwise2_same_shape fadd a b) as (out & Hadd & Hsh & Hel);
    [by rewrite Ha, Hb|].
  exists out. split; [done|]. split; [by rewrite Hsh|].
  apply Hel. by rewrite Ha.
Qed.

End EdgeMask.

Section LossFacts.
Context `{Scalar}.
Implicit Types s : list value.

Variable inference : loc * loc * loc * loc -> loc -> loc -> M (loc * loc).
Variable cross_entropy : tensor F -> tensor Z -> option (tensor F).
Variable interpolation : F.

(** [loss] as one step on the store around the call of the engine. *)
Lemma loss_eq (e sib cop grd s_label labels mask : loc) s tl ty tm :
  read_only inference ->
  s !! s_label = Some (VFloat tl) -> s !! labels = Some (VLong ty) ->
  s !! mask = Some (VBool tm) ->
  loss inference cross_entropy interpolation e sib cop grd s_label labels mask s =
    em ← logical_and (ge_scalar ty 0) tm;
    r ← inference (e, sib, cop, grd) mask (length s + 2)
          (s ++ [VBool (ge_scalar ty 0); VBool em; VLong (to_long em)]);
    input ← masked_select tl em;
    gold ← masked_select ty em;
    label_loss ← cross_entropy input gold;
    edge_loss ← r.1 !! r.2.1 ≫= as_float;
    out ← add (mul_scalar interpolation label_loss)
              (mul_scalar (fsub fone interpolation) edge_loss);
    Some (r.1 ++ [VFloat input; VLong gold; VFloat label_loss;
                  VFloat (mul_scalar interpolation label_loss);
                  VFloat (mul_scalar (fsub fone interpolation) edge_loss);
                  VFloat out],
          (length r.1 + 5, r.2.2)).
Proof.
  intros Hro Hl Hy Hm. unfold loss.
  rewrite bind_eq, (loss_edge_mask_eq labels mask s ty tm Hy Hm).
  destruct (logical_and (ge_scalar ty 0) tm) as [em|]; [|done].
  cbn [mbind option_bind]. unfold long_.
  set (s0 := s ++ [VBool (ge_scalar ty 0); VBool em]).
  assert (s0 !! S (length s) = Some (VBool em)) as Hem0.
  { unfold s0. rewrite lookup_app_r by lia.
    by replace (S (length s) - length s) with 1 by lia. }
  rewrite bind_assoc, (bind_read_bool _ _ _ _ Hem0), bind_alloc.
  assert (length s0 = length s + 2) as ->
    by (unfold s0; rewrite length_app; simpl; lia).
  assert (s0 ++ [VLong (to_long em)]
          = s ++ [VBool (ge_scalar ty 0); VBool em; VLong (to_long em)]) as ->
    by (unfold s0; by rewrite <- (assoc_L (++))).
  set (s1 := s ++ [VBool (ge_scalar ty 0); VBool em; VLong (to_long em)]).
  assert (s1 !! S (length s) = Some (VBool em)) as Hem1.
  { unfold s1. rewrite lookup_app_r by lia.
    by replace (S (length s) - length s) with 1 by lia. }
  assert (extends s s1) as Hs1 by (intros l v Hv; by apply lookup_app_l_Some).
  rewrite bind_eq.
  destruct (inference (e, sib, cop, grd) mask (length s + 2) s1)
    as [[s2 [el mg]]|] eqn:Hinf; [|done].
  cbn [mbind option_bind fst snd].
  destruct (Hro _ _ _ _ _ _ _ Hinf) as (Hext & Hel & Hmg).
  unfold getitem_float, getitem_long, criterion, rmul_, add_.
  rewrite bind_assoc, (bind_read_float _ _ _ _ (Hext _ _ (Hs1 _ _ Hl))).
  rewrite bind_assoc, (bind_read_bool _ _ _ _ (Hext _ _ Hem1)).
  rewrite bind_assoc, bind_lift.
  destruct (masked_select tl em) as [input|]; [|done].
  cbn [mbind option_bind]. rewrite bind_alloc.
  rewrite bind_assoc,
    (bind_read_long _ _ _ _ (lookup_alloc_old _ _ _ _ (Hext _ _ (Hs1 _ _ Hy)))).
  rewrite bind_assoc,
    (bind_read_bool _ _ _ _ (lookup_alloc_old _ _ _ _ (Hext _ _ Hem1))).
  rewrite bind_assoc, bind_lift.
  destruct (masked_select ty em) as [gold|]; [|done].
  cbn [mbind option_bind]. rewrite bind_alloc, <- (assoc_L (++)). cbn [app].
  assert (forall rest, length (s2 ++ rest) = length s2 + length rest) as Hlen
    by (intros; apply length_app).
  assert (forall k x rest, rest !! k = Some x ->
            (s2 ++ rest) !! (length s2 + k) = Some x) as Hnew.
  { intros k x rest Hk. rewrite lookup_app_r by lia.
    by replace (length s2 + k - length s2) with k by lia. }
  assert (forall x rest, (s2 ++ x :: rest) !! length s2 = Some x) as Hnew0
    by (intros; by apply list_lookup_middle).
  rewrite bind_assoc, (bind_read_float (length s2) input) by apply Hnew0.
  rewrite Hlen. cbn [length].
  rewrite bind_assoc, (bind_read_long (length s2 + 1) gold) by (by apply Hnew).
  rewrite bind_assoc, bind_lift.
  destruct (cross_entropy input gold) as [ll|]; [|done].
  cbn [mbind option_bind]. rewrite bind_alloc, <- (assoc_L (++)), Hlen.
  cbn [app length].
  rewrite bind_assoc, (bind_read_float (length s2 + 2) ll) by (by apply Hnew).
  rewrite bind_alloc, <- (assoc_L (++)), Hlen. cbn [app length].
  rewrite bind_assoc, bind_eq, read_float_eq.
  assert (forall rest, (s2 ++ rest) !! el = s2 !! el) as ->
    by (intros rest; apply lookup_app_l; unfold fresh_in in Hel; lia).
  destruct (s2 !! el ≫= as_float) as [tel|]; [|done].
  cbn [fmap option_fmap option_map mbind option_bind].
  rewrite bind_alloc, <- (assoc_L (++)), Hlen. cbn [app length].
  rewrite bind_assoc,
    (bind_read_float (length s2 + 3) (mul_scalar interpolation ll))
    by (by apply Hnew).
  rewrite bind_assoc,
    (bind_read_float (length s2 + 4)
       (mul_scalar (fsub fone interpolation) tel)) by (by apply Hnew).
  rewrite bind_assoc, bind_lift.
  destruct (add _ _) as [out|]; [|done].
  cbn [mbind option_bind]. rewrite bind_alloc, <- (assoc_L (++)), Hlen.
  cbn [app length]. reflexivity.
Qed.

(** C9.  Let [loss] run on label scores of shape [sh ++ [n_labels]] and on
    gold labels and a structural mask of shape [sh], with an engine that keeps
    the objects it is given.  [loss] calls the engine on the four score
    tensors, the mask and the 0/1 tensor of the positions with known gold
    inside the mask.  When the engine returns a scalar loss and the marginals,
    and the cross-entropy of the label scores at those positions against the
    gold labels at those positions is a scalar, [loss] returns a new scalar
    equal to [interpolation * label_loss + (1 - interpolation) * edge_loss]
    and, second, the marginals the engine returned. *)
Theorem loss_value (e sib cop grd s_label labels mask : loc) s tl ty tm sh
    (n_labels : nat) em s2 edge_loss marginals tel ll :
  read_only inference ->
  s !! s_label = Some (VFloat tl) -> s !! labels = Some (VLong ty) ->
  s !! mask = Some (VBool tm) ->
  shape ty = sh -> shape tm = sh -> shape tl = sh ++ [n_labels] ->
  logical_and (ge_scalar ty 0) tm = Some em ->
  inference (e, sib, cop, grd) mask (length s + 2)
    (s ++ [VBool (ge_scalar ty 0); VBool em; VLong (to_long em)])
    = Some (s2, (edge_loss, marginals)) ->
  s2 !! edge_loss = Some (VFloat tel) -> shape tel = [] ->
  cross_entropy (gather tl (known_positions ty tm) (length sh))
                (gather ty (known_positions ty tm) (length sh)) = Some ll ->
  shape ll = [] ->
  exists s' l out,
    loss inference cross_entropy interpolation
      e sib cop grd s_label labels mask s = Some (s', (l, marginals)) /\
    s' !! l = Some (VFloat out) /\ fresh_in s s' l /\ shape out = [] /\
    elem out [] = fadd (fmul interpolation (elem ll []))
                       (fmul (fsub fone interpolation) (elem tel [])) /\
    s' !! marginals = s2 !! marginals.
Proof.
  intros Hro Hl Hy Hm Hsy Hsm Hsl Hand Hinf Hel Hstel Hce Hsll.
  rewrite (loss_eq e sib cop grd s_label labels mask s tl ty tm Hro Hl Hy Hm).
  rewrite Hand. cbn [mbind option_bind]. rewrite Hinf.
  cbn [mbind option_bind fst snd].
  destruct (selected_known ty tm em) as [Hsem Hsel];
    [by rewrite Hsy, Hsm|done|].
  unfold masked_select. rewrite Hsem, Hsy, Hsel.
  rewrite Hsl, take_app_length, (take_ge sh (length sh)) by lia.
  rewrite !decide_True by done.
  cbn [mbind option_bind]. rewrite Hce. cbn [mbind option_bind].
  rewrite Hel. cbn [mbind option_bind as_float].
  destruct (add_scalars (mul_scalar interpolation ll)
              (mul_scalar (fsub fone interpolation) tel))
    as (out & Hadd & Hso & Hout); [done|done|].
  rewrite Hadd. cbn [mbind option_bind].
  destruct (Hro _ _ _ _ _ _ _ Hinf) as (Hext & Hfl & Hfm).
  unfold fresh_in in *. rewrite length_app in Hfl, Hfm. cbn [length] in Hfl, Hfm.
  eexists _, _, out. split; [reflexivity|]. split.
  { rewrite lookup_app_r by lia.
    by replace (length s2 + 5 - length s2) with 5 by lia. }
  split; [rewrite length_app; cbn [length]; lia|].
  split; [done|]. split; [exact Hout|].
  apply lookup_app_l. lia.
Qed.

(** C8.  [decode] and [loss] leave every object of the caller's store as it
    was, their arguments among them, and what they return is newly allocated.
    [decode] updates in place only the tensor that its own [argmax] has just
    allocated; [loss] updates nothing, given an engine that keeps the objects
    it is given. *)
Theorem no_mutation (q l : loc) s s' p
    (e sib cop grd s_label labels mask : loc) t tl ty tm t' lo marginals :
  read_only inference ->
  t !! s_label = Some (VFloat tl) -> t !! labels = Some (VLong ty) ->
  t !! mask = Some (VBool tm) ->
  (decode q l s = Some (s', p) -> extends s s' /\ fresh_in s s' p) /\
  (loss inference cross_entropy interpolation
     e sib cop grd s_label labels mask t = Some (t', (lo, marginals)) ->
   extends t t' /\ fresh_in t t' lo /\ fresh_in t t' marginals).
Proof.
  intros Hro Hl Hy Hm. split.
  - rewrite decode_eq. intros Hd.
    destruct (s !! l ≫= as_float) as [xl|]; [|done].
    cbn [mbind option_bind] in Hd.
    destruct (argmax (-1) xl) as [pred|]; [|done].
    cbn [mbind option_bind] in Hd.
    destruct (s !! q ≫= as_float) as [xq|]; [|done].
    cbn [mbind option_bind] in Hd.
    destruct (masked_fill pred (lt_scalar xq fhalf) (-1)%Z) as [out|]; [|done].
    cbn [mbind option_bind] in Hd. injection Hd as <- <-. split.
    + intros k v Hk. by apply lookup_app_l_Some.
    + unfold fresh_in. rewrite length_app. cbn [length]. lia.
  - rewrite (loss_eq e sib cop grd s_label labels mask t tl ty tm Hro Hl Hy Hm).
    intros Hd.
    destruct (logical_and (ge_scalar ty 0) tm) as [em|]; [|done].
    cbn [mbind option_bind] in Hd.
    destruct (inference _ _ _ _) as [[t2 [el mg]]|] eqn:Hinf; [|done].
    cbn [mbind option_bind fst snd] in Hd.
    destruct (masked_select tl em) as [input|]; [|done].
    cbn [mbind option_bind] in Hd.
    destruct (masked_select ty em) as [gold|]; [|done].
    cbn [mbind option_bind] in Hd.
    destruct (cross_entropy input gold) as [ll|]; [|done].
    cbn [mbind option_bind] in Hd.
    destruct (t2 !! el ≫= as_float) as [tel|]; [|done].
    cbn [mbind option_bind] in Hd.
    destruct (add _ _) as [out|]; [|done].
    cbn [mbind option_bind] in Hd. injection Hd as <- <- <-.
    destruct (Hro _ _ _ _ _ _ _ Hinf) as (Hext & Hfl & Hfm).
    unfold fresh_in in *. rewrite length_app in Hfl, Hfm.
    cbn [length] in Hfl, Hfm. rewrite !length_app. cbn [length].
    split; [|lia]. intros k v Hk. apply lookup_app_l_Some, Hext.
    by apply lookup_app_l_Some.
Qed.

(** C7.  Called in two stores on arguments with the same contents, [decode]
    fails in both or returns tensors with the same contents, and so does
    [loss] for the loss and for the marginals, given an engine that keeps the
    objects it is given and is a function of the contents of its arguments:
    nothing else in the store, and not the locations, reaches the results. *)
Theorem same_inputs_same_outputs
    (q1 e1 sib1 cop1 grd1 s_label1 labels1 mask1 : loc) s1
    (q2 e2 sib2 cop2 grd2 s_label2 labels2 mask2 : loc) s2
    vq ve vsib vcop vgrd tl ty tm :
  read_only inference -> pure_function inference ->
  s1 !! q1 = Some vq -> s2 !! q2 = Some vq ->
  s1 !! e1 = Some ve -> s2 !! e2 = Some ve ->
  s1 !! sib1 = Some vsib -> s2 !! sib2 = Some vsib ->
  s1 !! cop1 = Some vcop -> s2 !! cop2 = Some vcop ->
  s1 !! grd1 = Some vgrd -> s2 !! grd2 = Some vgrd ->
  s1 !! s_label1 = Some (VFloat tl) -> s2 !! s_label2 = Some (VFloat tl) ->
  s1 !! labels1 = Some (VLong ty) -> s2 !! labels2 = Some (VLong ty) ->
  s1 !! mask1 = Some (VBool tm) -> s2 !! mask2 = Some (VBool tm) ->
  agree same_object (decode q1 s_label1 s1) (decode q2 s_label2 s2) /\
  agree same_objects
    (loss inference cross_entropy interpolation
       e1 sib1 cop1 grd1 s_label1 labels1 mask1 s1)
    (loss inference cross_entropy interpolation
       e2 sib2 cop2 grd2 s_label2 labels2 mask2 s2).
Proof.
  intros Hro Hpure Hq1 Hq2 He1 He2 Hsib1 Hsib2 Hcop1 Hcop2 Hgrd1 Hgrd2
    Hl1 Hl2 Hy1 Hy2 Hm1 Hm2. split.
  - rewrite !decode_eq, Hl1, Hl2, Hq1, Hq2. cbn [mbind option_bind as_float].
    destruct (argmax (-1) tl) as [pred|]; [|done]. cbn [mbind option_bind].
    destruct (as_float vq) as [xq|]; [|done]. cbn [mbind option_bind].
    destruct (masked_fill pred (lt_scalar xq fhalf) (-1)%Z) as [out|]; [|done].
    cbn [mbind option_bind agree]. unfold same_object. cbn [fst snd].
    rewrite !(list_lookup_middle _ [_] _ _ eq_refl). eauto.
  - rewrite (loss_eq e1 sib1 cop1 grd1 s_label1 labels1 mask1 s1 tl ty tm
               Hro Hl1 Hy1 Hm1).
    rewrite (loss_eq e2 sib2 cop2 grd2 s_label2 labels2 mask2 s2 tl ty tm
               Hro Hl2 Hy2 Hm2).
    destruct (logical_and (ge_scalar ty 0) tm) as [em|]; [|done].
    cbn [mbind option_bind].
    set (new := [VBool (ge_scalar ty 0); VBool em; VLong (to_long em)]).
    assert (forall (s : list value) k v,
              s !! k = Some v -> (s ++ new) !! k = Some v) as Hold
      by (intros; by apply lookup_app_l_Some).
    assert (forall s : list value,
              (s ++ new) !! (length s + 2) = Some (VLong (to_long em))) as Htgt.
    { intros s0. rewrite lookup_app_r by lia.
      by replace (length s0 + 2 - length s0) with 2 by lia. }
    pose proof (Hpure (s1 ++ new) (s2 ++ new)
                  e1 sib1 cop1 grd1 mask1 (length s1 + 2)
                  e2 sib2 cop2 grd2 mask2 (length s2 + 2)) as Hp.
    rewrite (Hold _ _ _ He1), (Hold _ _ _ He2), (Hold _ _ _ Hsib1),
      (Hold _ _ _ Hsib2), (Hold _ _ _ Hcop1), (Hold _ _ _ Hcop2),
      (Hold _ _ _ Hgrd1), (Hold _ _ _ Hgrd2), (Hold _ _ _ Hm1),
      (Hold _ _ _ Hm2), !Htgt in Hp.
    specialize (Hp eq_refl eq_refl eq_refl eq_refl eq_refl eq_refl).
    destruct (inference (e1, sib1, cop1, grd1) mask1 (length s1 + 2) (s1 ++ new))
      as [[t1 [el1 mg1]]|] eqn:Hinf1;
      destruct (inference (e2, sib2, cop2, grd2) mask2 (length s2 + 2) (s2 ++ new))
      as [[t2 [el2 mg2]]|] eqn:Hinf2; try done.
    destruct Hp as [Hel Hmg]. cbn [mbind option_bind fst snd].
    destruct (masked_select tl em) as [input|]; [|done].
    cbn [mbind option_bind].
    destruct (masked_select ty em) as [gold|]; [|done].
    cbn [mbind option_bind].
    destruct (cross_entropy input gold) as [ll|]; [|done].
    cbn [mbind option_bind]. rewrite Hel.
    destruct (t2 !! el2 ≫= as_float) as [tel|]; [|done].
    cbn [mbind option_bind].
    destruct (add _ _) as [out|]; [|done].
    cbn [mbind option_bind agree].
    destruct (Hro _ _ _ _ _ _ _ Hinf1) as (_ & _ & Hf1).
    destruct (Hro _ _ _ _ _ _ _ Hinf2) as (_ & _ & Hf2).
    unfold fresh_in in Hf1, Hf2. unfold same_objects, same_object.
    cbn [fst snd].
    assert (forall (s : list value) rest, (s ++ rest) !! (length s + 5)
              = rest !! 5) as Hnew.
    { intros s0 rest. destruct (rest !! 5) as [x|] eqn:Hr.
      - rewrite lookup_app_r by lia.
        by replace (length s0 + 5 - length s0) with 5 by lia.
      - apply lookup_ge_None in Hr. apply lookup_ge_None.
        rewrite length_app. lia. }
    rewrite !Hnew. cbn [lookup list_lookup].
    rewrite !lookup_app_l by lia. rewrite Hmg.
    repeat split; eauto. apply lookup_lt_is_Some. lia.
Qed.

End LossFacts.

(** ** The example engine meets the contract *)

Section UnaryEngine.
Context `{Scalar}.
Implicit Types s : list value.

Lemma unary_engine_eq (e sib cop grd mask target : loc) s :
  unary_engine (e, sib, cop, grd) mask target s =
    u ← s !! e ≫= as_float;
    m ← s !! mask ≫= as_bool;
    t ← s !! target ≫= as_long;
    Some (s ++ [VFloat (squared_error (unary_marginals u m) m t);
                VFloat (unary_marginals u m)],
          (length s, S (length s))).
Proof.
  unfold unary_engine. cbn [fst snd]. rewrite bind_eq, read_float_eq.
  destruct (s !! e ≫= as_float) as [u|]; [|done].
  cbn [fmap option_fmap option_map mbind option_bind].
  rewrite bind_eq, read_bool_eq.
  destruct (s !! mask ≫= as_bool) as [m|]; [|done].
  cbn [fmap option_fmap option_map mbind option_bind].
  rewrite bind_eq, read_long_eq.
  destruct (s !! target ≫= as_long) as [t|]; [|done].
  cbn [fmap option_fmap option_map mbind option_bind].
  rewrite !bind_alloc, <- (assoc_L (++)), length_app. cbn [app length].
  cbn [mret M_ret]. by replace (length s + 1) with (S (length s)) by lia.
Qed.

Lemma unary_engine_read_only : read_only unary_engine.
Proof.
  intros [[[e sib] cop] grd] mask target s s' el mg. rewrite unary_engine_eq.
  destruct (s !! e ≫= as_float) as [u|]; [|done]. cbn [mbind option_bind].
  destruct (s !! mask ≫= as_bool) as [m|]; [|done]. cbn [mbind option_bind].
  destruct (s !! target ≫= as_long) as [t|]; [|done]. cbn [mbind option_bind].
  intros [= <- <- <-]. unfold fresh_in. rewrite length_app. cbn [length].
  split; [|lia]. intros k v Hk. by apply lookup_app_l_Some.
Qed.

Lemma unary_engine_pure_function : pure_function unary_engine.
Proof.
  intros s1 s2 e1 sib1 cop1 grd1 m1 t1 e2 sib2 cop2 grd2 m2 t2
    He _ _ _ Hm Ht.
  rewrite !unary_engine_eq, He, Hm, Ht.
  destruct (s2 !! e2 ≫= as_float) as [u|]; [|done]. cbn [mbind option_bind].
  destruct (s2 !! m2 ≫= as_bool) as [m|]; [|done]. cbn [mbind option_bind].
  destruct (s2 !! t2 ≫= as_long) as [t|]; [|done]. cbn [mbind option_bind].
  rewrite !(list_lookup_middle _ [_] _ _ eq_refl). split; [done|].
  rewrite !lookup_app_r by lia.
  by replace (S (length s1) - length s1) with 1 by lia;
     replace (S (length s2) - length s2) with 1 by lia.
Qed.

End UnaryEngine.

Lemma loss_edge_mask_exact_witness :
  exists s' edge_mask em,
    loss_edge_mask 5 6 loss_store = Some (s', edge_mask) /\
    s' !! edge_mask = Some (VBool em) /\ fresh_in loss_store s' edge_mask /\
    shape em = [1; 2; 2] /\
    forall idx, in_bounds idx [1; 2; 2] = true ->
      (elem em idx = true <->
       (0 <= elem example_labels idx)%Z /\ elem example_mask idx = true).
Proof.
  exact (loss_edge_mask_exact 5 6 loss_store example_labels example_mask
           [1; 2; 2] eq_refl eq_refl eq_refl eq_refl).
Defined.

(** The mask of the example: of the two positions inside the structural mask,
    only the one with a gold label is kept. *)
Example loss_edge_mask_example :
  (r ← loss_edge_mask 5 6 loss_store;
   em ← r.1 !! r.2 ≫= as_bool; Some (tolist em))
  = Some [false; false; true; false].
Proof. vm_compute. reflexivity. Qed.

Lemma loss_value_witness :
  exists s' l out,
    loss unary_engine gold_score 0.125%float 0 1 2 3 4 5 6 loss_store
      = Some (s', (l, 11)) /\
    s' !! l = Some (VFloat out) /\ fresh_in loss_store s' l /\
    shape out = [] /\
    elem out [] = (0.125 * 3 + (1 - 0.125) * 0.0625)%float /\
    s' !! 11 = Some (VFloat (unary_marginals example_scores example_mask)).
Proof.
  exact (loss_value unary_engine gold_score 0.125%float 0 1 2 3 4 5 6
           loss_store example_label_scores example_labels example_mask
           [1; 2; 2] 3 _ _ 10 11 _ _
           unary_engine_read_only eq_refl eq_refl eq_refl eq_refl eq_refl
           eq_refl eq_refl eq_refl eq_refl eq_refl eq_refl eq_refl).
Defined.

(** The loss of the example and the marginals it returns. *)
Example loss_example :
  (r ← loss unary_engine gold_score 0.125%float 0 1 2 3 4 5 6 loss_store;
   l ← r.1 !! r.2.1 ≫= as_float; q ← r.1 !! r.2.2 ≫= as_float;
   Some (tolist l, tolist q))
  = Some ([0.4296875], [0; 0; 0.75; 0])%float.
Proof. vm_compute. reflexivity. Qed.

Lemma no_mutation_witness :
  (exists s' p, decode 0 1 decode_store = Some (s', p) /\
     extends decode_store s' /\ fresh_in decode_store s' p) /\
  (exists t' lo marginals,
     loss unary_engine gold_score 0.125%float 0 1 2 3 4 5 6 loss_store
       = Some (t', (lo, marginals)) /\
     extends loss_store t' /\ fresh_in loss_store t' lo /\
     fresh_in loss_store t' marginals).
Proof.
  split.
  - eexists _, _. split; [reflexivity|].
    refine (proj1 (no_mutation unary_engine gold_score 0.125%float
                     0 1 decode_store _ _ 0 1 2 3 4 5 6 loss_store
                     example_label_scores example_labels example_mask
                     loss_store 0 0 unary_engine_read_only
                     eq_refl eq_refl eq_refl) eq_refl).
  - eexists _, _, _. split; [reflexivity|].
    refine (proj2 (no_mutation unary_engine gold_score 0.125%float
                     0 1 decode_store decode_store 0 0 1 2 3 4 5 6 loss_store
                     example_label_scores example_labels example_mask
                     _ _ _ unary_engine_read_only
                     eq_refl eq_refl eq_refl) eq_refl).
Defined.

Lemma same_inputs_same_outputs_witness :
  agree same_object (decode 0 4 loss_store) (decode 1 5 shifted_store) /\
  agree same_objects
    (loss unary_engine gold_score 0.125%float 0 1 2 3 4 5 6 loss_store)
    (loss unary_engine gold_score 0.125%float 1 2 3 4 5 6 7 shifted_store).
Proof.
  exact (same_inputs_same_outputs unary_engine gold_score 0.125%float
           0 0 1 2 3 4 5 6 loss_store 1 1 2 3 4 5 6 7 shifted_store
           (VFloat example_scores) (VFloat example_scores)
           (VFloat example_raw) (VFloat example_raw) (VFloat example_raw)
           example_label_scores example_labels example_mask
           unary_engine_read_only unary_engine_pure_function
           eq_refl eq_refl eq_refl eq_refl eq_refl eq_refl eq_refl eq_refl
           eq_refl eq_refl eq_refl eq_refl eq_refl eq_refl eq_refl eq_refl).
Defined.

(** The two runs return different locations and the same tensors. *)
Example same_outputs_example :
  (r1 ← decode 0 4 loss_store; r2 ← decode 1 5 shifted_store;
   o1 ← r1.1 !! r1.2 ≫= as_long; o2 ← r2.1 !! r2.2 ≫= as_long;
   Some (r1.2, r2.2, tolist o1, tolist o2))
  = Some (7, 8, [1; -1; 0; -1]%Z, [1; -1; 0; -1]%Z).
Proof. vm_compute. reflexivity. Qed.

(** ** The engine without iterations *)

Section ZeroIterations.
Context `{Scalar}.

Variable sigmoid : F -> F.
Variable messages : Type.
Variable lbp_init : tensor F -> messages.
Variable lbp_round :
  tensor F -> tensor F -> tensor F -> tensor F -> tensor bool ->
  messages -> messages.
Variable lbp_incoming : messages -> tensor F.

(** C4.  For every configured inference name, hence for both strategies, and
    for all potentials and every mask of matching shapes, the engine called
    with [max_iter = 0] returns marginals equal, entry by entry, to the
    logistic of the unary potential where the mask is true, and to zero where
    it is false; its trace holds these marginals alone. *)
Theorem zero_iterations (inference : string) (u sib cop grd : tensor F)
    (mask : tensor bool) (n : nat) :
  shape u = [n; n] -> shape sib = [n; n; n] -> shape cop = [n; n; n] ->
  shape grd = [n; n; n] -> shape mask = [n; n] ->
  exists q,
    Engine.infer sigmoid messages lbp_init lbp_round lbp_incoming
      (Engine.select inference) u sib cop grd mask 0 = Some (q, [q]) /\
    shape q = [n; n] /\
    forall i j, i < n -> j < n ->
      get q [i; j]
        = Some (if elem mask [i; j] then sigmoid (elem u [i; j]) else fzero).
Proof.
  intros Hu Hsib Hcop Hgrd Hmask. unfold Engine.infer. rewrite Hu.
  rewrite decide_True by (repeat split; try done; lia).
  cbn [Z.to_nat List.last].
  exists (Engine.under_mask mask (pointwise sigmoid u)).
  split; [reflexivity|]. split; [exact Hu|].
  intros i j Hi Hj. unfold get. cbn [shape Engine.under_mask pointwise].
  rewrite Hu. cbn [in_bounds].
  destruct (Nat.ltb_spec i n), (Nat.ltb_spec j n); try lia. reflexivity.
Qed.

End ZeroIterations.

Lemma zero_iterations_witness :
  exists q,
    Engine.infer clamped () (fun _ => ()) (fun _ _ _ _ _ m => m)
      (fun _ => example_unary)
      (Engine.select "lbp") example_unary example_triplet example_triplet
      example_triplet example_arc_mask 0 = Some (q, [q]) /\
    shape q = [2; 2] /\
    forall i j, i < 2 -> j < 2 ->
      get q [i; j]
        = Some (if elem example_arc_mask [i; j]
                then clamped (elem example_unary [i; j]) else fzero).
Proof.
  exact (zero_iterations clamped () (fun _ => ()) (fun _ _ _ _ _ m => m)
           (fun _ => example_unary) "lbp" example_unary example_triplet
           example_triplet example_triplet example_arc_mask 2
           eq_refl eq_refl eq_refl eq_refl eq_refl).
Defined.

(** Without iterations and with the clamped line as the logistic, both
    strategies give the same marginals; one mean-field round then moves
    them. *)
Example zero_iterations_example :
  (r ← Engine.infer clamped () (fun _ => ()) (fun _ _ _ _ _ m => m)
         (fun _ => example_unary)
         (Engine.select "mfvi") example_unary example_triplet example_triplet
         example_triplet example_arc_mask 0;
   Some (tolist r.1))
  = Some [0; 0; 0.75; 0]%float.
Proof. vm_compute. reflexivity. Qed.

(** * Further properties of the sources *)

(** ** The outputs of [forward] *)

Section ForwardOutputs.
Context `{Scalar}.

Lemma broadcast_rev_length s1 s2 r :
  broadcast_rev s1 s2 = Some r -> length r = max (length s1) (length s2).
Proof.
  revert s2 r. induction s1 as [|a s1 IH]; intros [|b s2] r Hr; cbn in Hr.
  - by inversion Hr.
  - by inversion Hr.
  - by inversion Hr.
  - destruct (if a =? b then _ else _) as [d|]; [|done]. cbn in Hr.
    destruct (broadcast_rev s1 s2) as [r'|] eqn:Hr'; [|done]. cbn in Hr.
    inversion Hr. cbn. by rewrite (IH _ _ Hr').
Qed.

Lemma broadcast_shapes_length s1 s2 r :
  broadcast_shapes s1 s2 = Some r -> length r = max (length s1) (length s2).
Proof.
  unfold broadcast_shapes. intros Hr.
  destruct (broadcast_rev (reverse s1) (reverse s2)) as [r'|] eqn:Hr'; [|done].
  cbn in Hr. inversion Hr. rewrite length_reverse.
  rewrite (broadcast_rev_length _ _ _ Hr'). by rewrite !length_reverse.
Qed.

Lemma permute_rank {A} (t : tensor A) a b c d :
  length (shape t) <> 4 -> permute [a; b; c; d] t = None.
Proof.
  intros Hr. unfold permute, is_permutation. cbn [length].
  destruct (Nat.eqb_spec 4 (length (shape t))); [congruence|done].
Qed.

Lemma swap_length i j (l : list nat) : length (swap i j l) = length l.
Proof. unfold swap. by rewrite !length_insert. Qed.

Lemma forward_sib_rank (raw : tensor F) :
  length (shape raw) <> 4 -> forward_sib raw = None.
Proof.
  intros Hr. unfold forward_sib.
  destruct (triu fzero 0 raw) as [upper|] eqn:Hu; [|done]. cbn [mbind option_bind].
  destruct (triu fzero 1 raw) as [strict|] eqn:Hs; [|done]. cbn [mbind option_bind].
  destruct (transpose (-1) (-2) strict) as [lower|] eqn:Hl; [|done]. cbn [mbind option_bind].
  destruct (add upper lower) as [s|] eqn:Hadd; [|done]. cbn [mbind option_bind].
  apply permute_rank. intros Hlen. apply Hr.
  unfold triu in Hu, Hs.
  destruct (2 <=? length (shape raw)); [|done].
  inversion Hu; subst upper. inversion Hs; subst strict. clear Hu Hs.
  unfold transpose in Hl. cbn [shape] in Hl.
  destruct (norm_dim (length (shape raw)) (-1)) as [i|]; [|done].
  destruct (norm_dim (length (shape raw)) (-2)) as [j|]; [|done].
  cbn in Hl. inversion Hl; subst lower. clear Hl.
  unfold add, pointwise2 in Hadd. cbn [shape] in Hadd.
  destruct (broadcast_shapes _ _) as [sh|] eqn:Hsh; [|done].
  cbn in Hadd. inversion Hadd; subst s. cbn [shape] in Hlen.
  apply broadcast_shapes_length in Hsh. rewrite swap_length in Hsh. lia.
Qed.

Lemma forward_cop_rank (raw : tensor F) :
  length (shape raw) <> 4 -> forward_cop raw = None.
Proof. intros Hr. unfold forward_cop. by rewrite permute_rank. Qed.

Lemma scatter_0231 b x y z : scatter [0; 2; 3; 1] [b; x; y; z] = [b; z; x; y].
Proof. reflexivity. Qed.

(** X1.  On scorer outputs of the documented shapes, [forward] returns: the
    edge scores are passed on as they are, the three second-order tensors
    have shape [B, n, n, n] and the label scores shape [B, n, n, L]; the
    grandparent and label scores are only re-indexed, entry [b, d, h, g] of
    the first being entry [b, h, g, d] of the scorer and entry [b, d, h, l]
    of the second being entry [b, l, d, h] of the scorer. *)
Theorem forward_outputs (edge sib cop grd label : tensor F) (B n L : nat) :
  shape sib = [B; n; n; n] -> shape cop = [B; n; n; n] ->
  shape grd = [B; n; n; n] -> shape label = [B; L; n; n] ->
  exists s_sib s_cop s_grd s_label,
    forward edge sib cop grd label
      = Some (edge, s_sib, s_cop, s_grd, s_label) /\
    shape s_sib = [B; n; n; n] /\ shape s_cop = [B; n; n; n] /\
    shape s_grd = [B; n; n; n] /\ shape s_label = [B; n; n; L] /\
    (forall b d h g, get s_grd [b; d; h; g] = get grd [b; h; g; d]) /\
    (forall b d h l, get s_label [b; d; h; l] = get label [b; l; d; h]).
Proof.
  intros Hsib Hcop Hgrd Hlabel.
  destruct (forward_sib_elem sib B n Hsib) as (s_sib & Es & Hs & _).
  destruct (forward_cop_elem cop B n Hcop) as (s_cop & Ec & Hc & _).
  exists s_sib, s_cop,
    (Tensor [B; n; n; n] (fun idx => elem grd (scatter [0; 3; 1; 2] idx))),
    (Tensor [B; n; n; L] (fun idx => elem label (scatter [0; 2; 3; 1] idx))).
  split.
  { unfold forward. rewrite Es, Ec. cbn.
    unfold forward_grd, forward_label.
    rewrite (permute_0312 grd B n n n Hgrd). cbn.
    unfold permute. rewrite Hlabel. reflexivity. }
  do 4 (split; [done|]). split.
  - intros b d h g.
    rewrite (get4 _ B n n n) by done. rewrite (get4 grd B n n n) by done.
    cbn [elem]. rewrite scatter_0312.
    repeat case_decide; try reflexivity; lia.
  - intros b d h l.
    rewrite (get4 _ B n n L) by done. rewrite (get4 label B L n n) by done.
    cbn [elem]. rewrite scatter_0231.
    repeat case_decide; try reflexivity; lia.
Qed.

(** X2.  [forward] raises when one of the three second-order scorers, or the
    label scorer, returns a tensor that does not have four dimensions. *)
Theorem forward_rank_error (edge sib cop grd label : tensor F) :
  length (shape sib) <> 4 \/ length (shape cop) <> 4 \/
  length (shape grd) <> 4 \/ length (shape label) <> 4 ->
  forward edge sib cop grd label = None.
Proof.
  intros Hr. unfold forward.
  destruct (forward_sib sib) as [s_sib|] eqn:Es; [|done]. cbn [mbind option_bind].
  destruct (forward_cop cop) as [s_cop|] eqn:Ec; [|done]. cbn [mbind option_bind].
  destruct (forward_grd grd) as [s_grd|] eqn:Eg; [|done]. cbn [mbind option_bind].
  destruct (forward_label label) as [s_label|] eqn:El; [|done]. cbn [mbind option_bind].
  exfalso. destruct Hr as [Hr|[Hr|[Hr|Hr]]].
  - by rewrite forward_sib_rank in Es.
  - by rewrite forward_cop_rank in Ec.
  - unfold forward_grd in Eg. by rewrite permute_rank in Eg.
  - unfold forward_label in El. by rewrite permute_rank in El.
Qed.

End ForwardOutputs.

(** ** The decoder at its edges *)

Section DecodeEdges.
Context `{Scalar}.

Lemma label_scores_length (tl : tensor F) B n L b i j :
  shape tl = [B; n; n; L] -> length (label_scores tl [b; i; j]) = L.
Proof. intros Hsl. unfold label_scores. by rewrite fibre_length, Hsl. Qed.

(** The chart of [decode], entry by entry. *)
Lemma decode_entries (e l : loc) s te tl (B n L : nat) :
  s !! e = Some (VFloat te) -> s !! l = Some (VFloat tl) ->
  shape te = [B; n; n] -> shape tl = [B; n; n; L] -> L <> 0 ->
  exists out,
    decode e l s = Some (s ++ [VLong out; VBool (lt_scalar te fhalf)], length s) /\
    shape out = [B; n; n] /\
    forall b i j, b < B -> i < n -> j < n ->
      elem out [b; i; j] =
        if fltb (elem te [b; i; j]) fhalf then (-1)%Z
        else Z.of_nat (argmax_row (label_scores tl [b; i; j])).
Proof.
  intros He Hl Hse Hsl HL.
  rewrite (decode_run e l s te tl [B; n; n] L He Hl Hse Hsl HL).
  eexists. split; [reflexivity|]. split; [reflexivity|].
  intros b i j Hb Hi Hj. cbn [elem].
  assert (in_bounds [b; i; j] [B; n; n] = true) as Hin by (by apply in_bounds3).
  by rewrite (bidx_in_bounds _ _ Hin).
Qed.

Lemma argmax_label_range (tl : tensor F) B n L b i j :
  shape tl = [B; n; n; L] -> L <> 0 ->
  argmax_row (label_scores tl [b; i; j]) < L.
Proof.
  intros Hsl HL.
  pose proof (argmax_row_bound (label_scores tl [b; i; j])) as Hb.
  rewrite (label_scores_length tl B n L) in Hb by done. apply Hb.
  intros Hnil. apply (f_equal length) in Hnil.
  rewrite (label_scores_length tl B n L) in Hnil by done. done.
Qed.

(** X3.  In the chart of [decode] the value -1 marks exactly the positions
    whose marginal compares below 0.5; every other position holds a label
    index from 0 to [n_labels - 1], so a label is never confused with the
    absence of an arc. *)
Theorem decode_arc_iff (e l : loc) s te tl (B n L : nat) :
  s !! e = Some (VFloat te) -> s !! l = Some (VFloat tl) ->
  shape te = [B; n; n] -> shape tl = [B; n; n; L] -> L <> 0 ->
  exists s' p out,
    decode e l s = Some (s', p) /\ s' !! p = Some (VLong out) /\
    forall b i j, b < B -> i < n -> j < n ->
      (get out [b; i; j] = Some (-1)%Z <->
         fltb (elem te [b; i; j]) fhalf = true) /\
      (fltb (elem te [b; i; j]) fhalf = false ->
         exists v, get out [b; i; j] = Some v /\ (0 <= v < Z.of_nat L)%Z).
Proof.
  intros He Hl Hse Hsl HL.
  destruct (decode_entries e l s te tl B n L He Hl Hse Hsl HL)
    as (out & Hrun & Hso & Hel).
  exists (s ++ [VLong out; VBool (lt_scalar te fhalf)]), (length s), out.
  split; [exact Hrun|]. split.
  { by rewrite (list_lookup_middle s [_] _ (length s) eq_refl). }
  intros b i j Hb Hi Hj.
  assert (in_bounds [b; i; j] (shape out) = true) as Hin
    by (rewrite Hso; by apply in_bounds3).
  rewrite (get_in_bounds _ _ Hin), (Hel b i j Hb Hi Hj).
  pose proof (argmax_label_range tl B n L b i j Hsl HL) as Hr.
  destruct (fltb (elem te [b; i; j]) fhalf); split.
  - done.
  - done.
  - split; [|done]. intros [= Heq]. lia.
  - intros _. eexists. split; [reflexivity|]. lia.
Qed.

(** X4.  [decode] raises when the label scores have no label to choose
    from (a last dimension of size 0), whatever the marginals are. *)
Theorem decode_no_labels (e l : loc) s tl sh :
  s !! l = Some (VFloat tl) -> shape tl = sh ++ [0] ->
  decode e l s = None.
Proof.
  intros Hl Hsl. rewrite decode_eq, Hl. cbn [mbind option_bind as_float].
  by rewrite (argmax_last tl sh 0 Hsl).
Qed.

End DecodeEdges.

(** *** Not-a-number scores, in binary64 *)

Lemma ltb_nan_l (x y : F) : fisnan x = true -> fltb x y = false.
Proof.
  unfold fisnan. cbn [feqb fltb scalar]. intros Hx.
  destruct (x <? y)%float eqn:Hlt; [|done].
  apply ltb_true_iff in Hlt as (Hn & _ & _).
  apply eqb_refl_number in Hn. by rewrite Hn in Hx.
Qed.

Lemma eqb_nan_r (x y : F) : fisnan y = true -> feqb x y = false.
Proof.
  unfold fisnan. cbn [feqb scalar]. intros Hy.
  destruct (x =? y)%float eqn:Heq; [|done].
  apply eqb_true_iff in Heq as (_ & Hn & _).
  apply eqb_refl_number in Hn. by rewrite Hn in Hy.
Qed.

(** Once the running best of the arg-max is a NaN it is kept. *)
Lemma argmax_from_nan (xs : list F) arg arg_i i :
  fisnan arg = true -> arg_i < i -> argmax_from arg arg_i i xs = arg_i.
Proof.
  intros Hnan. revert i. induction xs as [|x xs IH]; intros i Hi; [done|].
  cbn [argmax_from]. unfold greater_or_nan. rewrite Hnan.
  destruct (fisnan x).
  - destruct (Nat.ltb_spec arg_i i); [|lia]. apply IH. lia.
  - apply IH. lia.
Qed.

(** The arg-max from a best that is a number stops at the first NaN. *)
Lemma argmax_from_first_nan (pre post : list F) x arg arg_i i :
  fisnan arg = false -> Forall (fun y => fisnan y = false) pre ->
  fisnan x = true -> arg_i < i ->
  argmax_from arg arg_i i (pre ++ x :: post) = i + length pre.
Proof.
  intros Harg Hpre Hx. revert arg arg_i i Harg.
  induction Hpre as [|y pre Hy Hpre IH]; intros arg arg_i i Harg Hi.
  - cbn [app argmax_from length]. unfold greater_or_nan. rewrite Harg.
    rewrite (eqb_nan_r arg x Hx), (ltb_nan_l x arg Hx).
    rewrite (argmax_from_nan post x i (S i) Hx) by lia. lia.
  - cbn [app argmax_from length].
    destruct (greater_or_nan arg y arg_i i).
    + rewrite (IH arg arg_i (S i) Harg) by lia. lia.
    + rewrite (IH y i (S i) Hy) by lia. lia.
Qed.

Lemma argmax_row_first_nan (xs : list F) k x :
  xs !! k = Some x -> fisnan x = true ->
  (forall k' y, k' < k -> xs !! k' = Some y -> fisnan y = false) ->
  argmax_row xs = k.
Proof.
  intros Hk Hx Hbefore.
  destruct (list_elem_of_split_length xs k x Hk) as (pre & post & -> & Hlen).
  assert (Forall (fun y => fisnan y = false) pre) as Hpre.
  { apply Forall_lookup. intros k' y Hy.
    apply (Hbefore k' y).
    - apply lookup_lt_Some in Hy. lia.
    - by apply lookup_app_l_Some. }
  destruct pre as [|a pre]; cbn [app argmax_row].
  - subst k. by apply argmax_from_nan; [|cbn; lia].
  - apply Forall_cons in Hpre as [Ha Hpre].
    rewrite (argmax_from_first_nan pre post x a 0 1 Ha Hpre Hx) by lia.
    by subst k.
Qed.

(** X5.  A marginal that is not a number counts as an arc: it does not
    compare below 0.5, so [decode] keeps the arg-max label at its position,
    a label index below [n_labels]. *)
Theorem decode_nan_marginal (e l : loc) (s : list value) (te tl : tensor F)
    (B n L b i j : nat) :
  s !! e = Some (VFloat te) -> s !! l = Some (VFloat tl) ->
  shape te = [B; n; n] -> shape tl = [B; n; n; L] -> L <> 0 ->
  b < B -> i < n -> j < n ->
  fisnan (elem te [b; i; j]) = true ->
  exists s' p out,
    decode e l s = Some (s', p) /\ s' !! p = Some (VLong out) /\
    get out [b; i; j]
      = Some (Z.of_nat (argmax_row (label_scores tl [b; i; j]))) /\
    argmax_row (label_scores tl [b; i; j]) < L.
Proof.
  intros He Hl Hse Hsl HL Hb Hi Hj Hnan.
  destruct (decode_entries e l s te tl B n L He Hl Hse Hsl HL)
    as (out & Hrun & Hso & Hel).
  exists (s ++ [VLong out; VBool (lt_scalar te fhalf)]), (length s), out.
  split; [exact Hrun|]. split.
  { by rewrite (list_lookup_middle s [_] _ (length s) eq_refl). }
  split; [|by apply (argmax_label_range tl B n L)].
  assert (in_bounds [b; i; j] (shape out) = true) as Hin
    by (rewrite Hso; by apply in_bounds3).
  rewrite (get_in_bounds _ _ Hin), (Hel b i j Hb Hi Hj).
  by rewrite (ltb_nan_l _ fhalf Hnan).
Qed.

Lemma decode_nan_marginal_witness :
  exists s' p out,
    decode 0 1 nan_store = Some (s', p) /\ s' !! p = Some (VLong out) /\
    get out [0; 0; 0]
      = Some (Z.of_nat (argmax_row
                          (label_scores example_label_scores_nan [0; 0; 0]))) /\
    argmax_row (label_scores example_label_scores_nan [0; 0; 0]) < 3.
Proof.
  apply (decode_nan_marginal 0 1 nan_store example_marginals_nan
           example_label_scores_nan 1 2 3 0 0 0);
    try reflexivity; lia.
Defined.

(** X6.  A label score that is not a number wins the arg-max of [decode]:
    where the marginal does not compare below 0.5, the decoded label is the
    first label whose score is a NaN. *)
Theorem decode_nan_label (e l : loc) (s : list value) (te tl : tensor F)
    (B n L b i j k : nat) (x : F) :
  s !! e = Some (VFloat te) -> s !! l = Some (VFloat tl) ->
  shape te = [B; n; n] -> shape tl = [B; n; n; L] -> L <> 0 ->
  b < B -> i < n -> j < n ->
  fltb (elem te [b; i; j]) fhalf = false ->
  label_scores tl [b; i; j] !! k = Some x -> fisnan x = true ->
  (forall k' y, k' < k -> label_scores tl [b; i; j] !! k' = Some y ->
     fisnan y = false) ->
  exists s' p out,
    decode e l s = Some (s', p) /\ s' !! p = Some (VLong out) /\
    get out [b; i; j] = Some (Z.of_nat k).
Proof.
  intros He Hl Hse Hsl HL Hb Hi Hj Harc Hk Hx Hbefore.
  destruct (decode_entries e l s te tl B n L He Hl Hse Hsl HL)
    as (out & Hrun & Hso & Hel).
  exists (s ++ [VLong out; VBool (lt_scalar te fhalf)]), (length s), out.
  split; [exact Hrun|]. split.
  { by rewrite (list_lookup_middle s [_] _ (length s) eq_refl). }
  assert (in_bounds [b; i; j] (shape out) = true) as Hin
    by (rewrite Hso; by apply in_bounds3).
  rewrite (get_in_bounds _ _ Hin), (Hel b i j Hb Hi Hj), Harc.
  by rewrite (argmax_row_first_nan _ k x Hk Hx Hbefore).
Qed.

Lemma decode_nan_label_witness :
  exists s' p out,
    decode 0 1 nan_store = Some (s', p) /\ s' !! p = Some (VLong out) /\
    get out [0; 0; 0] = Some 1%Z.
Proof.
  apply (decode_nan_label 0 1 nan_store example_marginals_nan
           example_label_scores_nan 1 2 3 0 0 0 1 nan);
    try reflexivity; try lia.
  intros [|k'] y Hk' Hy; [|lia].
  vm_compute in Hy. injection Hy as <-. reflexivity.
Defined.

(** The chart of the same run: a NaN marginal keeps its label, and the first
    NaN label score is the label. *)
Example decode_nan_example :
  (r ← decode 0 1 nan_store; out ← r.1 !! r.2 ≫= as_long; Some (tolist out))
  = Some [1; -1; 0; 0]%Z.
Proof. vm_compute. reflexivity. Qed.

(** ** The arc mask at its edges *)

Section ArcMaskEdges.
Context `{Scalar}.

(** X7.  Building the arc mask raises when the token mask of the batch has
    fewer than two dimensions ([unsqueeze] is out of range) or no position
    at all ([mask[:, 0] = 0] has no column to write). *)
Theorem arc_mask_errors (bm : loc) s tok (B : nat) :
  s !! bm = Some (VBool tok) ->
  length (shape tok) < 2 \/ shape tok = [B; 0] ->
  arc_mask bm s = None.
Proof.
  intros Hl Hs. unfold arc_mask. rewrite (bind_read_bool _ _ _ _ Hl).
  destruct Hs as [Hs|Hs].
  - unfold unsqueeze. destruct (shape tok) as [|a [|a' sh]] eqn:Hsh.
    + by rewrite bind_lift.
    + cbn [length Nat.leb]. by rewrite !bind_lift.
    + cbn in Hs. lia.
  - unfold unsqueeze, logical_and, pointwise2. rewrite Hs.
    cbn [length Nat.leb take drop app]. rewrite !bind_lift. cbn [shape].
    assert (broadcast_shapes [B; 1; 0] [B; 0; 1] = Some [B; 0; 0]) as ->.
    { unfold broadcast_shapes. change (reverse [B; 1; 0]) with [0; 1; B].
      change (reverse [B; 0; 1]) with [1; 0; B]. cbn [broadcast_rev Nat.eqb].
      by rewrite Nat.eqb_refl. }
    cbn [mbind option_bind].
    rewrite bind_alloc, (bind_read_bool _ _ _ _ (lookup_alloc_new s _)).
    unfold setitem_col0. cbn [shape Nat.ltb Nat.leb]. by rewrite bind_lift.
Qed.

(** X8.  The arc mask keeps the root as a head: an arc from the root to a
    real token other than the root is admitted, although no arc into the
    root is.  Apart from the row of the root the mask is symmetric. *)
Theorem arc_mask_root_head (bm : loc) s tok (B n : nat) :
  s !! bm = Some (VBool tok) -> shape tok = [B; n] -> n <> 0 ->
  exists s' mask m,
    arc_mask bm s = Some (s', mask) /\ s' !! mask = Some (VBool m) /\
    forall b d h, b < B -> d < n -> h < n -> d <> 0 ->
      (elem tok [b; d] = true -> elem tok [b; 0] = true ->
         get m [b; d; 0] = Some true /\ get m [b; 0; d] = Some false) /\
      (h <> 0 -> get m [b; d; h] = get m [b; h; d]).
Proof.
  intros Hl Hs Hn. rewrite (arc_mask_run bm s tok B n Hl Hs Hn).
  eexists _, _, _. split; [reflexivity|]. split; [apply lookup_alloc_new|].
  intros b d h Hb Hd Hh Hd0.
  assert (forall x y, x < n -> y < n ->
            get (arc_mask_of tok B n) [b; x; y]
            = Some (negb (x =? 0) && elem tok [b; x] && elem tok [b; y])) as Hg.
  { intros x y Hx Hy. rewrite get_in_bounds by (by apply in_bounds3).
    by rewrite arc_mask_of_elem. }
  split.
  - intros Ht H0. rewrite !Hg by lia. rewrite Ht, H0.
    by destruct (Nat.eqb_spec d 0).
  - intros Hh0. rewrite !Hg by lia.
    destruct (Nat.eqb_spec d 0), (Nat.eqb_spec h 0); try done.
    cbn [negb andb]. by rewrite andb_comm.
Qed.

End ArcMaskEdges.

(** A token mask without any position, one sentence. *)
Lemma arc_mask_errors_witness :
  arc_mask 0 [VBool (Tensor [1; 0] (fun _ => true))] = None.
Proof.
  apply (arc_mask_errors 0 _ (Tensor [1; 0] (fun _ => true)) 1);
    [reflexivity | right; reflexivity].
Defined.

Lemma arc_mask_root_head_witness :
  exists s' mask m,
    arc_mask 0 mask_store = Some (s', mask) /\ s' !! mask = Some (VBool m) /\
    forall b d h, b < 1 -> d < 2 -> h < 2 -> d <> 0 ->
      (elem example_tok [b; d] = true -> elem example_tok [b; 0] = true ->
         get m [b; d; 0] = Some true /\ get m [b; 0; d] = Some false) /\
      (h <> 0 -> get m [b; d; h] = get m [b; h; d]).
Proof.
  apply (arc_mask_root_head 0 mask_store example_tok 1 2);
    [reflexivity | reflexivity | lia].
Defined.

(** ** The charts handed to the metric *)

Section ChartFacts.
Context `{Scalar}.

Lemma masked_fill_new_same_shape {A} (t : tensor A) (mask : tensor bool) v :
  shape mask = shape t ->
  masked_fill_new t mask v =
    Some (Tensor (shape t) (fun idx =>
            if elem mask (bidx (shape t) idx) then v
            else elem t (bidx (shape t) idx))).
Proof.
  intros Hs. unfold masked_fill_new, pointwise2.
  by rewrite Hs, broadcast_shapes_same.
Qed.

Lemma outside_mask_eq (chart mask : loc) s :
  outside_mask chart mask s =
    tm ← s !! mask ≫= as_bool;
    t ← s !! chart ≫= as_long;
    out ← masked_fill_new t (logical_not tm) (-1)%Z;
    Some (s ++ [VBool (logical_not tm); VLong out], S (length s)).
Proof.
  unfold outside_mask, invert_, masked_fill_long.
  rewrite bind_eq, bind_eq, read_bool_eq.
  destruct (s !! mask ≫= as_bool) as [tm|]; [|by cbn].
  cbn [fmap option_fmap option_map mbind option_bind]. unfold alloc at 1.
  assert ((s ++ [VBool (logical_not tm)]) !! chart ≫= as_long
          = s !! chart ≫= as_long) as Hc.
  { destruct (decide (chart < length s)) as [Hlt|Hge].
    - by rewrite lookup_app_l.
    - rewrite (lookup_ge_None_2 s chart) by lia.
      destruct (decide (chart = length s)) as [->|Hne].
      + by rewrite lookup_alloc_new_snoc.
      + rewrite lookup_ge_None_2; [done|]. rewrite length_app. cbn. lia. }
  rewrite bind_eq, read_long_eq, Hc.
  destruct (s !! chart ≫= as_long) as [t|]; [|by cbn].
  cbn [fmap option_fmap option_map mbind option_bind].
  rewrite bind_eq, read_bool_eq, lookup_alloc_new_snoc.
  cbn [fmap option_fmap option_map mbind option_bind as_bool].
  rewrite bind_eq. unfold lift at 1.
  destruct (masked_fill_new t (logical_not tm) (-1)%Z) as [out|]; [|by cbn].
  cbn [fmap option_fmap option_map mbind option_bind]. unfold alloc.
  rewrite length_app, <- (assoc_L (++)). cbn [length app].
  by replace (length s + 1) with (S (length s)) by lia.
Qed.

(** [chart.masked_fill(~mask, -1)] for a chart and a mask of one shape. *)
Lemma outside_mask_run (chart mask : loc) s t tm sh :
  s !! chart = Some (VLong t) -> s !! mask = Some (VBool tm) ->
  shape t = sh -> shape tm = sh ->
  outside_mask chart mask s =
    Some (s ++ [VBool (logical_not tm);
                VLong (Tensor sh (fun idx =>
                         if negb (elem tm (bidx sh idx)) then (-1)%Z
                         else elem t (bidx sh idx)))],
          S (length s)).
Proof.
  intros Hc Hm Ht Htm. rewrite outside_mask_eq, Hc, Hm.
  cbn [mbind option_bind as_bool as_long].
  rewrite masked_fill_new_same_shape
    by (cbn [logical_not pointwise shape]; congruence).
  cbn [mbind option_bind logical_not pointwise elem]. by rewrite Ht.
Qed.

(** X9.  The two charts that [_train] and [_evaluate] hand to the metric
    are new tensors: the predicted chart and the gold chart keep their
    entries where the mask is true and hold -1 everywhere else, so they
    agree outside the mask; the chart of [decode], the gold labels of the
    batch and the mask are left as they were. *)
Theorem metric_charts_entries (label_preds labels mask : loc) s tp ty tm sh :
  s !! label_preds = Some (VLong tp) -> s !! labels = Some (VLong ty) ->
  s !! mask = Some (VBool tm) ->
  shape tp = sh -> shape ty = sh -> shape tm = sh ->
  exists s' p g outp outg,
    metric_charts label_preds labels mask s = Some (s', (p, g)) /\
    s' !! p = Some (VLong outp) /\ s' !! g = Some (VLong outg) /\
    extends s s' /\ fresh_in s s' p /\ fresh_in s s' g /\
    forall idx, in_bounds idx sh = true ->
      get outp idx = Some (if elem tm idx then elem tp idx else (-1)%Z) /\
      get outg idx = Some (if elem tm idx then elem ty idx else (-1)%Z) /\
      (elem tm idx = false -> get outp idx = get outg idx).
Proof.
  intros Hp Hy Hm Hsp Hsy Hsm. unfold metric_charts.
  rewrite bind_eq, (outside_mask_run _ _ s tp tm sh Hp Hm Hsp Hsm).
  set (outp := Tensor sh (fun idx =>
                 if negb (elem tm (bidx sh idx)) then (-1)%Z
                 else elem tp (bidx sh idx))).
  set (s1 := s ++ [VBool (logical_not tm); VLong outp]).
  assert (forall l v, s !! l = Some v -> s1 !! l = Some v) as Hext1
    by (intros l v Hl; by apply lookup_app_l_Some).
  rewrite bind_eq,
    (outside_mask_run _ _ s1 ty tm sh (Hext1 _ _ Hy) (Hext1 _ _ Hm) Hsy Hsm).
  set (outg := Tensor sh (fun idx =>
                 if negb (elem tm (bidx sh idx)) then (-1)%Z
                 else elem ty (bidx sh idx))).
  cbn [mret M_ret].
  exists (s1 ++ [VBool (logical_not tm); VLong outg]), (S (length s)),
    (S (length s1)), outp, outg.
  assert (length s1 = length s + 2) as Hlen1
    by (unfold s1; rewrite length_app; reflexivity).
  split; [reflexivity|]. split.
  { apply lookup_app_l_Some. unfold s1. rewrite lookup_app_r by lia.
    by replace (S (length s) - length s) with 1 by lia. }
  split.
  { rewrite lookup_app_r by lia.
    by replace (S (length s1) - length s1) with 1 by lia. }
  split. { intros l v Hl. by apply lookup_app_l_Some, Hext1. }
  split. { unfold fresh_in. rewrite length_app. cbn [length]. lia. }
  split. { unfold fresh_in. rewrite length_app. cbn [length]. lia. }
  intros idx Hin.
  rewrite !get_in_bounds by done. cbn [outp outg elem].
  rewrite (bidx_in_bounds _ _ Hin).
  destruct (elem tm idx); done.
Qed.

End ChartFacts.

(** ** The chart of [_predict] *)

Section PredictChart.
Context `{Scalar}.

Variable network : M (loc * loc * loc * loc * loc).
Variable marginals_of : loc * loc * loc * loc -> loc -> M loc.

Lemma predict_chart_run (bm : loc) s tok (B n L : nat)
    s2 e0 sib cop grd l s3 q te tl :
  s !! bm = Some (VBool tok) -> shape tok = [B; n] -> n <> 0 ->
  network (s ++ [VBool (arc_mask_of tok B n)])
    = Some (s2, (e0, sib, cop, grd, l)) ->
  marginals_of (e0, sib, cop, grd) (length s) s2 = Some (s3, q) ->
  extends (s ++ [VBool (arc_mask_of tok B n)]) s3 ->
  s3 !! q = Some (VFloat te) -> shape te = [B; n; n] ->
  s3 !! l = Some (VFloat tl) -> shape tl = [B; n; n; L] -> L <> 0 ->
  exists s' p out,
    predict_chart network marginals_of bm s = Some (s', p) /\
    s' !! p = Some (VLong out) /\ extends s s' /\ shape out = [B; n; n] /\
    forall b d h, b < B -> d < n -> h < n ->
      elem out [b; d; h] =
        (if negb (d =? 0) && elem tok [b; d] && elem tok [b; h] &&
            negb (fltb (elem te [b; d; h]) fhalf)
         then Z.of_nat (argmax_row (label_scores tl [b; d; h]))
         else (-1)%Z).
Proof.
  intros Hbm Hst Hn Hnet Heng Hext Hq Hse Hl Hsl HL.
  unfold predict_chart, with_arc_mask.
  rewrite bind_eq, (arc_mask_run bm s tok B n Hbm Hst Hn).
  rewrite bind_eq, Hnet. cbv beta iota.
  rewrite bind_eq, Heng.
  destruct (decode_entries q l s3 te tl B n L Hq Hl Hse Hsl HL)
    as (dec & Hrun & Hsd & Hdec).
  rewrite bind_eq, Hrun.
  set (s4 := s3 ++ [VLong dec; VBool (lt_scalar te fhalf)]).
  assert (s4 !! length s3 = Some (VLong dec)) as Hc
    by (unfold s4; by rewrite (list_lookup_middle s3 [_] _ (length s3) eq_refl)).
  assert (s4 !! length s = Some (VBool (arc_mask_of tok B n))) as Hm.
  { apply lookup_app_l_Some, Hext, lookup_alloc_new. }
  rewrite (outside_mask_run _ _ s4 dec (arc_mask_of tok B n) [B; n; n]
             Hc Hm Hsd eq_refl).
  eexists _, _, _. split; [reflexivity|]. split.
  { rewrite lookup_app_r by lia.
    by replace (S (length s4) - length s4) with 1 by lia. }
  split.
  { intros a v Ha. apply lookup_app_l_Some, lookup_app_l_Some, Hext.
    by apply lookup_alloc_old. }
  split; [reflexivity|].
  intros b d h Hb Hd Hh. cbn [elem].
  assert (in_bounds [b; d; h] [B; n; n] = true) as Hin by (by apply in_bounds3).
  rewrite (bidx_in_bounds _ _ Hin).
  rewrite (arc_mask_of_elem tok B n b d h Hb Hd Hh), (Hdec b d h Hb Hd Hh).
  destruct (negb (d =? 0) && elem tok [b; d] && elem tok [b; h]); [|done].
  cbn [negb andb]. by destruct (fltb (elem te [b; d; h]) fhalf).
Qed.

(** X10.  One batch of [_predict], from the token mask to the chart of
    labels, given what the network and the engine return for it and that
    they leave the arc mask alone: the chart holds at [b, d, h] the arg-max
    label if [d] is not the root, [d] and [h] are real tokens and the
    marginal of the arc does not compare below 0.5, and -1 otherwise.  So no
    arc enters the root and none touches a padding position, whatever the
    engine returns there; the token mask of the batch is unchanged. *)
Theorem predict_chart_entries (bm : loc) s tok (B n L : nat)
    s2 e0 sib cop grd l s3 q te tl :
  s !! bm = Some (VBool tok) -> shape tok = [B; n] -> n <> 0 ->
  network (s ++ [VBool (arc_mask_of tok B n)])
    = Some (s2, (e0, sib, cop, grd, l)) ->
  marginals_of (e0, sib, cop, grd) (length s) s2 = Some (s3, q) ->
  extends (s ++ [VBool (arc_mask_of tok B n)]) s3 ->
  s3 !! q = Some (VFloat te) -> shape te = [B; n; n] ->
  s3 !! l = Some (VFloat tl) -> shape tl = [B; n; n; L] -> L <> 0 ->
  exists s' p out,
    predict_chart network marginals_of bm s = Some (s', p) /\
    s' !! p = Some (VLong out) /\ s' !! bm = Some (VBool tok) /\
    shape out = [B; n; n] /\
    forall b d h, b < B -> d < n -> h < n ->
      get out [b; d; h] =
        Some (if negb (d =? 0) && elem tok [b; d] && elem tok [b; h] &&
            negb (fltb (elem te [b; d; h]) fhalf)
         then Z.of_nat (argmax_row (label_scores tl [b; d; h]))
         else (-1)%Z) /\
      get out [b; 0; h] = Some (-1)%Z /\
      (elem tok [b; d] = false \/ elem tok [b; h] = false ->
         get out [b; d; h] = Some (-1)%Z).
Proof.
  intros Hbm Hst Hn Hnet Heng Hext Hq Hse Hl Hsl HL.
  destruct (predict_chart_run bm s tok B n L s2 e0 sib cop grd l s3 q te tl
              Hbm Hst Hn Hnet Heng Hext Hq Hse Hl Hsl HL)
    as (s' & p & out & Hrun & Hp & Hexts & Hso & Hel).
  exists s', p, out. split; [exact Hrun|]. split; [exact Hp|].
  split; [by apply Hexts|]. split; [exact Hso|].
  intros b d h Hb Hd Hh.
  assert (forall x y, x < n -> y < n ->
            get out [b; x; y] = Some (elem out [b; x; y])) as Hg.
  { intros x y Hx Hy. apply get_in_bounds. rewrite Hso. by apply in_bounds3. }
  split; [by rewrite Hg, Hel|]. split; [by rewrite Hg, Hel by lia|].
  intros Hpad. rewrite Hg, Hel by done.
  destruct Hpad as [-> | ->]; by rewrite ?andb_false_r.
Qed.

End PredictChart.

(** ** From the chart to the labels of a sentence *)

Section Relations.

Lemma slice_bound_le n z : slice_bound n z <= n.
Proof. unfold slice_bound. destruct (Z.ltb_spec z 0); lia. Qed.

Lemma slice_lookup n a b k x :
  slice n a b !! k = Some x <->
  x = slice_bound n a + k /\ x < slice_bound n b.
Proof. unfold slice. rewrite lookup_seq. lia. Qed.

Lemma elem_of_slice n a b x :
  x ∈ slice n a b <-> slice_bound n a <= x < slice_bound n b.
Proof. unfold slice. rewrite elem_of_seq. lia. Qed.

(** The rows of [chart[1:i, :i]] are rows of the chart after the first, and
    its columns are columns of the chart from the first on. *)
Lemma slice_rows n i k x : slice n 1 i !! k = Some x -> x = S k /\ x < n.
Proof.
  intros [-> Hlt]%slice_lookup. pose proof (slice_bound_le n i).
  unfold slice_bound in *. cbn [Z.ltb Z.compare] in *. lia.
Qed.

Lemma slice_columns m i k x : slice m 0 i !! k = Some x -> x = k /\ x < m.
Proof.
  intros [-> Hlt]%slice_lookup. pose proof (slice_bound_le m i).
  unfold slice_bound in *. cbn [Z.ltb Z.compare] in *. lia.
Qed.

Lemma mapM_total {A B} (f : A -> option B) (g : A -> B) (l : list A) :
  (forall x, x ∈ l -> f x = Some (g x)) -> mapM f l = Some (g <$> l).
Proof.
  intros Hf. apply mapM_Some. apply Forall2_fmap_r, Forall_Forall2_diag.
  by apply Forall_forall.
Qed.

Lemma label_of_None vocab v :
  label_of vocab v = None <-> (Z.of_nat (length vocab) <= v)%Z.
Proof.
  unfold label_of. destruct (Z.leb_spec 0 v) as [Hv|Hv].
  - rewrite fmap_None, lookup_ge_None. lia.
  - split; [done|lia].
Qed.

Lemma label_of_Some vocab v :
  (v < Z.of_nat (length vocab))%Z ->
  label_of vocab v =
    Some (if (v <? 0)%Z then None else vocab !! Z.to_nat v).
Proof.
  intros Hv. unfold label_of.
  destruct (Z.leb_spec 0 v), (Z.ltb_spec v 0); try lia; [|done].
  destruct (lookup_lt_is_Some_2 vocab (Z.to_nat v)) as [name ->]; [lia|done].
Qed.

(** The labels of one sentence when every entry of its chart is below the
    size of the vocabulary. *)
Lemma relation_rows_run vocab (chart : tensor Z) n m i :
  shape chart = [n; m] ->
  (forall r c, r < n -> c < m ->
     (elem chart [r; c] < Z.of_nat (length vocab))%Z) ->
  exists rows,
    relation_rows vocab chart i = Some rows /\
    length rows = length (slice n 1 i) /\
    forall r row, rows !! r = Some row ->
      length row = length (slice m 0 i) /\
      forall c lab, row !! c = Some lab ->
        S r < n /\ c < m /\
        lab = if (elem chart [S r; c] <? 0)%Z then None
              else vocab !! Z.to_nat (elem chart [S r; c]).
Proof.
  intros Hs Hlt. unfold relation_rows. rewrite Hs.
  set (lab r c := if (elem chart [r; c] <? 0)%Z then None
                  else vocab !! Z.to_nat (elem chart [r; c])).
  exists ((fun r => lab r <$> slice m 0 i) <$> slice n 1 i). split.
  { apply mapM_total. intros r [kr Hr]%list_elem_of_lookup.
    apply slice_rows in Hr as [-> Hr].
    apply mapM_total. intros c [kc Hc]%list_elem_of_lookup.
    apply slice_columns in Hc as [-> Hc].
    by apply label_of_Some, Hlt. }
  split; [by rewrite length_fmap|].
  intros r row Hrow. apply list_lookup_fmap_Some in Hrow as (x & -> & Hx).
  apply slice_rows in Hx as [-> Hx].
  split; [by rewrite length_fmap|].
  intros c lab' Hc. apply list_lookup_fmap_Some in Hc as (y & -> & Hy).
  by apply slice_columns in Hy as [-> Hy].
Qed.

(** X11.  Turning the chart of a sentence into labels raises exactly when an
    entry of the slice [chart[1:i, :i]] is an index at or beyond the size of
    the vocabulary.  The slice never reads the row of the root, and a
    negative entry is never looked up. *)
Theorem relation_rows_error vocab (chart : tensor Z) (n m : nat) (i : Z) :
  shape chart = [n; m] ->
  (relation_rows vocab chart i = None <->
   exists r c, r ∈ slice n 1 i /\ c ∈ slice m 0 i /\
     (Z.of_nat (length vocab) <= elem chart [r; c])%Z) /\
  (forall r c, r ∈ slice n 1 i -> c ∈ slice m 0 i -> 1 <= r < n /\ c < m).
Proof.
  intros Hs. split.
  - unfold relation_rows. rewrite Hs, mapM_None, Exists_exists.
    split.
    + intros (r & Hr & Hrow). apply mapM_None, Exists_exists in Hrow.
      destruct Hrow as (c & Hc & Hlab). exists r, c.
      by apply label_of_None in Hlab.
    + intros (r & c & Hr & Hc & Hv). exists r. split; [done|].
      apply mapM_None, Exists_exists. exists c. split; [done|].
      by apply label_of_None.
  - intros r c [kr Hr]%list_elem_of_lookup [kc Hc]%list_elem_of_lookup.
    apply slice_rows in Hr as [-> Hr]. apply slice_columns in Hc as [-> Hc].
    lia.
Qed.

(** X12.  The size of the labels of a sentence: for a length [i] that is
    not negative the slice [chart[1:i, :i]] is clamped to the chart, so a
    chart of [n] positions gives [min i n - 1] rows, one for each dependent
    after the root, of [min i n] heads each; in particular a length of 0 or
    1 gives no row at all. *)
Theorem relation_rows_size vocab (chart : tensor Z) (n : nat) (i : Z) rows :
  shape chart = [n; n] -> (0 <= i)%Z ->
  relation_rows vocab chart i = Some rows ->
  length rows = Nat.min (Z.to_nat i) n - 1 /\
  (forall r row, rows !! r = Some row -> length row = Nat.min (Z.to_nat i) n) /\
  ((i <= 1)%Z -> rows = []).
Proof.
  intros Hs Hi Hrel. unfold relation_rows in Hrel. rewrite Hs in Hrel.
  apply mapM_Some in Hrel.
  assert (slice_bound n i = Nat.min (Z.to_nat i) n) as Hb.
  { unfold slice_bound. destruct (Z.ltb_spec i 0); lia. }
  assert (slice_bound n 1 = Nat.min 1 n) as H1.
  { unfold slice_bound. cbn [Z.ltb Z.compare]. lia. }
  assert (slice_bound n 0 = 0) as H0.
  { unfold slice_bound. cbn [Z.ltb Z.compare]. lia. }
  assert (length rows = Nat.min (Z.to_nat i) n - 1) as Hlen.
  { rewrite <- (Forall2_length _ _ _ Hrel). unfold slice.
    rewrite length_seq, Hb, H1. lia. }
  split; [exact Hlen|]. split.
  - intros r row Hrow.
    destruct (Forall2_lookup_r _ _ _ _ _ Hrel Hrow) as (x & _ & Hx).
    apply mapM_Some in Hx. rewrite <- (Forall2_length _ _ _ Hx). unfold slice.
    rewrite length_seq, Hb, H0. lia.
  - intros Hle. apply length_zero_iff_nil. lia.
Qed.

End Relations.

(** ** The labels of [_predict] *)

Section PredictLabels.
Context `{Scalar}.

Variable network : M (loc * loc * loc * loc * loc).
Variable marginals_of : loc * loc * loc * loc -> loc -> M loc.
Variable vocab : list string.
Variable lens : list Z.

(** X13.  One batch of [_predict], from the token mask to the labels handed
    to [CoNLL.build_relations], with a vocabulary of [n_labels] labels: no
    lookup in the vocabulary is out of range, so the conversion returns;
    there is one list of rows for each sentence that has a length in
    [lens]; row [r] of a sentence is the dependent [r + 1], its entry [c] is
    the head [c], and it is the arg-max label when both are real tokens and
    the marginal of the arc does not compare below 0.5, and [None]
    otherwise. *)
Theorem predict_labels_run (bm : loc) s tok (B n L : nat)
    s2 e0 sib cop grd l s3 q te tl :
  s !! bm = Some (VBool tok) -> shape tok = [B; n] -> n <> 0 ->
  network (s ++ [VBool (arc_mask_of tok B n)])
    = Some (s2, (e0, sib, cop, grd, l)) ->
  marginals_of (e0, sib, cop, grd) (length s) s2 = Some (s3, q) ->
  extends (s ++ [VBool (arc_mask_of tok B n)]) s3 ->
  s3 !! q = Some (VFloat te) -> shape te = [B; n; n] ->
  s3 !! l = Some (VFloat tl) -> shape tl = [B; n; n; L] -> L <> 0 ->
  length vocab = L ->
  exists s' rels,
    predict_labels network marginals_of vocab lens bm s = Some (s', rels) /\
    length rels = min (length lens) B /\
    forall b i rows, lens !! b = Some i -> rels !! b = Some rows ->
      length rows = length (slice n 1 i) /\
      forall r c row lab, rows !! r = Some row -> row !! c = Some lab ->
        S r < n /\ c < n /\
        argmax_row (label_scores tl [b; S r; c]) < length vocab /\
        lab = if elem tok [b; S r] && elem tok [b; c] &&
                 negb (fltb (elem te [b; S r; c]) fhalf)
              then vocab !! argmax_row (label_scores tl [b; S r; c])
              else None.
Proof.
  intros Hbm Hst Hn Hnet Heng Hext Hq Hse Hl Hsl HL Hvocab.
  destruct (predict_chart_run network marginals_of bm s tok B n L
              s2 e0 sib cop grd l s3 q te tl
              Hbm Hst Hn Hnet Heng Hext Hq Hse Hl Hsl HL)
    as (s' & p & out & Hrun & Hp & _ & Hso & Hel).
  unfold predict_labels. rewrite bind_eq, Hrun.
  rewrite (bind_read_long _ _ _ _ Hp). unfold lift, predict_relations, unbind0.
  rewrite Hso. cbn [mbind option_bind].
  set (f := fun '(i, chart) => relation_rows vocab chart i).
  set (charts := select0 out <$> seq 0 B).
  assert (forall b i chart, zip lens charts !! b = Some (i, chart) ->
            lens !! b = Some i /\ b < B /\ chart = select0 out b) as Hzip.
  { intros b i chart Hz.
    apply lookup_zip_with_Some in Hz as (x & y & [= -> ->] & Hx & Hy).
    unfold charts in Hy. apply list_lookup_fmap_Some in Hy as (b' & -> & Hb').
    apply lookup_seq in Hb' as [-> Hb']. done. }
  assert (forall b, b < B ->
            forall r c, r < n -> c < n ->
              (elem (select0 out b) [r; c] < Z.of_nat (length vocab))%Z) as Hlt.
  { intros b Hb r c Hr Hc. cbn [select0 elem]. rewrite (Hel b r c Hb Hr Hc).
    pose proof (argmax_label_range tl B n L b r c Hsl HL).
    destruct (_ && negb _); lia. }
  assert (forall b, shape (select0 out b) = [n; n]) as Hshape
    by (intros b; cbn [select0 shape]; by rewrite Hso).
  assert (is_Some (mapM f (zip lens charts))) as [rels Hrels].
  { apply mapM_is_Some_2, Forall_lookup. intros b [i chart] Hz.
    destruct (Hzip b i chart Hz) as (_ & Hb & ->). cbn [f compose].
    destruct (relation_rows_run vocab (select0 out b) n n i (Hshape b) (Hlt b Hb))
      as (rows & -> & _). done. }
  rewrite Hrels. cbn [fmap option_fmap option_map].
  exists s', rels. split; [reflexivity|].
  apply mapM_Some in Hrels.
  split.
  { rewrite <- (Forall2_length _ _ _ Hrels). unfold charts.
    by rewrite length_zip_with, length_fmap, length_seq. }
  intros b i rows Hi Hrows.
  destruct (lookup_lt_is_Some_2 (zip lens charts) b) as [[i' chart] Hz].
  { rewrite (Forall2_length _ _ _ Hrels). by apply lookup_lt_Some in Hrows. }
  pose proof (Forall2_lookup_lr _ _ _ _ _ _ Hrels Hz Hrows) as Hf. cbn [f] in Hf.
  destruct (Hzip b i' chart Hz) as (Hi' & Hb & ->).
  assert (i' = i) as -> by congruence.
  destruct (relation_rows_run vocab (select0 out b) n n i (Hshape b) (Hlt b Hb))
    as (rows' & Hr' & Hlen & Hent).
  assert (rows' = rows) as -> by congruence.
  split; [exact Hlen|].
  intros r c row lab Hrow Hlab.
  destruct (Hent r row Hrow) as [_ Hcell].
  destruct (Hcell c lab Hlab) as (Hr & Hc & ->).
  split; [done|]. split; [done|].
  pose proof (argmax_label_range tl B n L b (S r) c Hsl HL) as Ha.
  split; [lia|].
  cbn [select0 elem]. rewrite (Hel b (S r) c Hb Hr Hc).
  cbn [Nat.eqb negb andb].
  destruct (_ && negb _); [|done].
  destruct (Z.ltb_spec (Z.of_nat (argmax_row (label_scores tl [b; S r; c]))) 0);
    [lia|]. by rewrite Nat2Z.id.
Qed.

End PredictLabels.

(** ** The inputs of the label criterion *)

Section LossInputs.
Context `{Scalar}.

Variable inference : loc * loc * loc * loc -> loc -> loc -> M (loc * loc).
Variable interpolation : F.

Lemma known_positions_lookup (ty : tensor Z) (tm : tensor bool) r idx :
  known_positions ty tm !! r = Some idx ->
  in_bounds idx (shape ty) = true /\ (0 <= elem ty idx)%Z /\
  elem tm idx = true.
Proof.
  intros Hr. apply list_elem_of_lookup_2 in Hr. unfold known_positions in Hr.
  apply list_elem_of_filter in Hr as [[Hy Hm] Hin].
  by apply indices_in_bounds in Hin.
Qed.

(** X14.  What [loss] hands to the label criterion.  With [K] positions
    where the gold label is known and the mask is true, the criterion gets
    [K] rows of label scores and [K] gold labels, in row-major order of the
    positions; every gold label it gets is non-negative, so the value -1 of
    an unknown label never reaches it, and with no such position it gets an
    empty batch.  The loss depends on the criterion through its value on
    this one pair only. *)
Theorem loss_criterion_inputs
    (cross_entropy cross_entropy' : tensor F -> tensor Z -> option (tensor F))
    (e sib cop grd s_label labels mask : loc) s tl ty tm sh (n_labels : nat) :
  read_only inference ->
  s !! s_label = Some (VFloat tl) -> s !! labels = Some (VLong ty) ->
  s !! mask = Some (VBool tm) ->
  shape ty = sh -> shape tm = sh -> shape tl = sh ++ [n_labels] ->
  let pos := known_positions ty tm in
  let input := gather tl pos (length sh) in
  let gold := gather ty pos (length sh) in
  shape input = [length pos; n_labels] /\ shape gold = [length pos] /\
  (forall r, r < length pos ->
     exists idx, pos !! r = Some idx /\ in_bounds idx sh = true /\
       elem tm idx = true /\ (0 <= elem gold [r])%Z /\
       elem gold [r] = elem ty idx /\
       forall c, elem input [r; c] = elem tl (idx ++ [c])) /\
  (cross_entropy' input gold = cross_entropy input gold ->
   loss inference cross_entropy' interpolation
     e sib cop grd s_label labels mask s
   = loss inference cross_entropy interpolation
       e sib cop grd s_label labels mask s).
Proof.
  intros Hro Hl Hy Hm Hsy Hsm Hsl pos input gold.
  split.
  { cbn [input gather shape]. by rewrite Hsl, drop_app_length. }
  split.
  { cbn [gold gather shape]. by rewrite Hsy, drop_all. }
  split.
  { intros r Hr. destruct (lookup_lt_is_Some_2 pos r Hr) as [idx Hidx].
    destruct (known_positions_lookup ty tm r idx Hidx) as (Hin & Hge & Htm).
    exists idx. split; [done|]. split; [by rewrite <- Hsy|]. split; [done|].
    cbn [gold input gather elem].
    rewrite (list_lookup_total_correct pos r idx Hidx), app_nil_r. done. }
  intros Hce.
  rewrite !(loss_eq inference _ interpolation e sib cop grd s_label labels mask
              s tl ty tm Hro Hl Hy Hm).
  destruct (logical_and (ge_scalar ty 0) tm) as [em|] eqn:Hand; [|done].
  cbn [mbind option_bind].
  destruct (inference _ _ _ _) as [r|]; [|done]. cbn [mbind option_bind].
  destruct (selected_known ty tm em) as [Hsem Hsel];
    [by rewrite Hsy, Hsm|done|].
  unfold masked_select. rewrite Hsem, Hsy, Hsel.
  rewrite Hsl, take_app_length, (take_ge sh (length sh)) by lia.
  rewrite !decide_True by done.
  cbn [mbind option_bind]. fold pos input gold. by rewrite Hce.
Qed.

(** X15.  [loss] combines the mask with the gold labels position by
    position, so it needs the arc mask of shape [B, n, n]: with the token
    mask of shape [B, n] that its documentation names, and sizes that do not
    happen to broadcast, it raises before it calls the engine. *)
Theorem loss_token_mask_rejected
    (cross_entropy : tensor F -> tensor Z -> option (tensor F))
    (e sib cop grd s_label labels mask : loc) s ty tm (B n : nat) :
  s !! labels = Some (VLong ty) -> s !! mask = Some (VBool tm) ->
  shape ty = [B; n; n] -> shape tm = [B; n] ->
  B <> n -> B <> 1 -> n <> 1 ->
  loss inference cross_entropy interpolation
    e sib cop grd s_label labels mask s = None.
Proof.
  intros Hy Hm Hsy Hsm HBn HB Hn. unfold loss.
  rewrite bind_eq, (loss_edge_mask_eq labels mask s ty tm Hy Hm).
  unfold logical_and, pointwise2. cbn [ge_scalar pointwise shape].
  rewrite Hsy, Hsm. unfold broadcast_shapes.
  change (reverse [B; n; n]) with [n; n; B].
  change (reverse [B; n]) with [n; B]. cbn [broadcast_rev].
  rewrite Nat.eqb_refl.
  destruct (Nat.eqb_spec n B); [lia|].
  destruct (Nat.eqb_spec n 1); [lia|].
  destruct (Nat.eqb_spec B 1); [lia|]. done.
Qed.

End LossInputs.

(** ** The further properties on the example data *)

Lemma forward_outputs_witness :
  exists s_sib s_cop s_grd s_label,
    forward example_scores example_raw example_raw example_raw
      example_raw_labels
      = Some (example_scores, s_sib, s_cop, s_grd, s_label) /\
    shape s_sib = [1; 2; 2; 2] /\ shape s_cop = [1; 2; 2; 2] /\
    shape s_grd = [1; 2; 2; 2] /\ shape s_label = [1; 2; 2; 2] /\
    (forall b d h g, get s_grd [b; d; h; g] = get example_raw [b; h; g; d]) /\
    (forall b d h l,
       get s_label [b; d; h; l] = get example_raw_labels [b; l; d; h]).
Proof.
  exact (@forward_outputs scalar example_scores example_raw example_raw example_raw
           example_raw_labels 1 2 2 eq_refl eq_refl eq_refl eq_refl).
Defined.

(** The grandparent scores are re-indexed, not made symmetric. *)
Example forward_grd_example :
  tolist <$> forward_grd example_raw = Some [1; 3; 5; 7; 2; 4; 6; 8]%float.
Proof. vm_compute. reflexivity. Qed.

(** Sibling scores with three dimensions only. *)
Lemma forward_rank_error_witness :
  forward example_scores example_scores example_raw example_raw
    example_raw_labels = None.
Proof.
  apply (@forward_rank_error scalar example_scores example_scores example_raw
           example_raw example_raw_labels).
  left. cbn. lia.
Defined.

Lemma decode_arc_iff_witness :
  exists s' p out,
    decode 0 1 decode_store = Some (s', p) /\ s' !! p = Some (VLong out) /\
    forall b i j, b < 1 -> i < 2 -> j < 2 ->
      (get out [b; i; j] = Some (-1)%Z <->
         fltb (elem example_marginals [b; i; j]) fhalf = true) /\
      (fltb (elem example_marginals [b; i; j]) fhalf = false ->
         exists v, get out [b; i; j] = Some v /\ (0 <= v < Z.of_nat 3)%Z).
Proof.
  apply (decode_arc_iff 0 1 decode_store example_marginals
           example_label_scores 1 2 3); try reflexivity; lia.
Defined.

Lemma decode_no_labels_witness : decode 0 1 no_labels_store = None.
Proof.
  exact (decode_no_labels 0 1 no_labels_store example_no_labels [1; 2; 2]
           eq_refl eq_refl).
Defined.

Lemma metric_charts_entries_witness :
  exists s' p g outp outg,
    metric_charts 0 1 2 metric_store = Some (s', (p, g)) /\
    s' !! p = Some (VLong outp) /\ s' !! g = Some (VLong outg) /\
    extends metric_store s' /\ fresh_in metric_store s' p /\
    fresh_in metric_store s' g /\
    forall idx, in_bounds idx [1; 2; 2] = true ->
      get outp idx
        = Some (if elem example_mask idx then elem example_preds idx
                else (-1)%Z) /\
      get outg idx
        = Some (if elem example_mask idx then elem example_labels idx
                else (-1)%Z) /\
      (elem example_mask idx = false -> get outp idx = get outg idx).
Proof.
  exact (metric_charts_entries 0 1 2 metric_store example_preds example_labels
           example_mask [1; 2; 2] eq_refl eq_refl eq_refl eq_refl eq_refl
           eq_refl).
Defined.

(** The two charts of the example: the predicted label 1 at the root row is
    hidden, the other entries are inside the mask. *)
Example metric_charts_example :
  (r ← metric_charts 0 1 2 metric_store;
   p ← r.1 !! r.2.1 ≫= as_long; g ← r.1 !! r.2.2 ≫= as_long;
   Some (tolist p, tolist g))
  = Some ([-1; -1; 0; 2]%Z, [-1; -1; 2; -1]%Z).
Proof. vm_compute. reflexivity. Qed.

Lemma predict_chart_entries_witness :
  exists s' p out,
    predict_chart example_network unary_marginals_of 5 predict_store
      = Some (s', p) /\
    s' !! p = Some (VLong out) /\ s' !! 5 = Some (VBool example_tok) /\
    shape out = [1; 2; 2] /\
    forall b d h, b < 1 -> d < 2 -> h < 2 ->
      get out [b; d; h] =
        Some (if negb (d =? 0) && elem example_tok [b; d] &&
                 elem example_tok [b; h] &&
                 negb (fltb (elem example_predict_marginals [b; d; h])
                            fhalf)
              then Z.of_nat (argmax_row
                               (label_scores example_label_scores [b; d; h]))
              else (-1)%Z) /\
      get out [b; 0; h] = Some (-1)%Z /\
      (elem example_tok [b; d] = false \/ elem example_tok [b; h] = false ->
         get out [b; d; h] = Some (-1)%Z).
Proof.
  apply (@predict_chart_entries scalar example_network unary_marginals_of 5
           predict_store example_tok 1 2 3
           (predict_store ++ [VBool (arc_mask_of example_tok 1 2)]) 0 1 2 3 4
           ((predict_store ++ [VBool (arc_mask_of example_tok 1 2)]) ++
            [@VFloat scalar example_predict_marginals])
           7 example_predict_marginals
           example_label_scores);
    try reflexivity; try lia.
  intros l v Hl. by apply lookup_app_l_Some.
Defined.

(** The chart of the example: the only arc kept goes from the root to the
    token, with label 0. *)
Example predict_chart_example :
  (r ← predict_chart example_network unary_marginals_of 5 predict_store;
   out ← r.1 !! r.2 ≫= as_long; Some (tolist out))
  = Some [-1; -1; 0; -1]%Z.
Proof. vm_compute. reflexivity. Qed.

Lemma relation_rows_error_witness :
  (relation_rows example_vocab example_chart 2 = None <->
   exists r c, r ∈ slice 2 1 2 /\ c ∈ slice 2 0 2 /\
     (Z.of_nat (length example_vocab) <= elem example_chart [r; c])%Z) /\
  (forall r c, r ∈ slice 2 1 2 -> c ∈ slice 2 0 2 -> 1 <= r < 2 /\ c < 2).
Proof. exact (relation_rows_error example_vocab example_chart 2 2 2 eq_refl). Defined.

(** The index 5 of the example chart is beyond the three labels; a slice
    that leaves it out is converted. *)
Example relation_rows_example :
  relation_rows example_vocab example_chart 2 = None /\
  relation_rows example_vocab example_chart (-1)
    = Some [] /\
  relation_rows example_vocab (select0 example_preds 0) 2
    = Some [[Some "ARG0"; Some "ARG2"]]%string.
Proof. vm_compute. auto. Qed.

Lemma relation_rows_size_witness :
  length [[Some "ARG0"; Some "ARG2"]]%string = Nat.min (Z.to_nat 2) 2 - 1 /\
  (forall r row, [[Some "ARG0"; Some "ARG2"]]%string !! r = Some row ->
     length row = Nat.min (Z.to_nat 2) 2) /\
  ((2 <= 1)%Z -> [[Some "ARG0"; Some "ARG2"]]%string = []).
Proof.
  apply (relation_rows_size example_vocab (select0 example_preds 0) 2 2);
    [reflexivity | lia | reflexivity].
Defined.

Lemma predict_labels_run_witness :
  exists s' rels,
    predict_labels example_network unary_marginals_of example_vocab [2%Z]
      5 predict_store = Some (s', rels) /\
    length rels = Nat.min (length [2%Z]) 1 /\
    forall b i rows, [2%Z] !! b = Some i -> rels !! b = Some rows ->
      length rows = length (slice 2 1 i) /\
      forall r c row lab, rows !! r = Some row -> row !! c = Some lab ->
        S r < 2 /\ c < 2 /\
        argmax_row (label_scores example_label_scores [b; S r; c])
          < length example_vocab /\
        lab = if elem example_tok [b; S r] && elem example_tok [b; c] &&
                 negb (fltb (elem example_predict_marginals [b; S r; c]) fhalf)
              then example_vocab
                     !! argmax_row (label_scores example_label_scores
                                      [b; S r; c])
              else None.
Proof.
  apply (@predict_labels_run scalar example_network unary_marginals_of example_vocab
           [2%Z] 5 predict_store example_tok 1 2 3
           (predict_store ++ [VBool (arc_mask_of example_tok 1 2)]) 0 1 2 3 4
           ((predict_store ++ [VBool (arc_mask_of example_tok 1 2)]) ++
            [@VFloat scalar example_predict_marginals])
           7 example_predict_marginals
           example_label_scores);
    try reflexivity; try lia.
  intros l v Hl. by apply lookup_app_l_Some.
Defined.

(** The labels of the example: one row, for the token; its arc from the
    root has the first label and its self-loop is not predicted. *)
Example predict_labels_example :
  snd <$> predict_labels example_network unary_marginals_of example_vocab
            [2%Z] 5 predict_store
  = Some [[[Some "ARG0"; None]]]%string.
Proof. vm_compute. reflexivity. Qed.

Lemma loss_criterion_inputs_witness :
  shape (gather example_label_scores
           (known_positions example_labels example_mask) 3)
    = [length (known_positions example_labels example_mask); 3] /\
  shape (gather example_labels
           (known_positions example_labels example_mask) 3)
    = [length (known_positions example_labels example_mask)] /\
  (forall r, r < length (known_positions example_labels example_mask) ->
     exists idx,
       known_positions example_labels example_mask !! r = Some idx /\
       in_bounds idx [1; 2; 2] = true /\ elem example_mask idx = true /\
       (0 <= elem (gather example_labels
                     (known_positions example_labels example_mask) 3) [r])%Z /\
       elem (gather example_labels
               (known_positions example_labels example_mask) 3) [r]
         = elem example_labels idx /\
       forall c,
         elem (gather example_label_scores
                 (known_positions example_labels example_mask) 3) [r; c]
           = elem example_label_scores (idx ++ [c])) /\
  (gold_score
     (gather example_label_scores
        (known_positions example_labels example_mask) 3)
     (gather example_labels
        (known_positions example_labels example_mask) 3)
   = gold_score
       (gather example_label_scores
          (known_positions example_labels example_mask) 3)
       (gather example_labels
          (known_positions example_labels example_mask) 3) ->
   loss unary_engine gold_score 0.125%float 0 1 2 3 4 5 6 loss_store
   = loss unary_engine gold_score 0.125%float 0 1 2 3 4 5 6 loss_store).
Proof.
  exact (@loss_criterion_inputs scalar unary_engine 0.125%float gold_score gold_score
           0 1 2 3 4 5 6 loss_store example_label_scores example_labels
           example_mask [1; 2; 2] 3 unary_engine_read_only
           eq_refl eq_refl eq_refl eq_refl eq_refl eq_refl).
Defined.

(** The one known position of the example and what the criterion gets for
    it: its three label scores and its gold label. *)
Example loss_criterion_inputs_example :
  known_positions example_labels example_mask = [[0; 1; 0]] /\
  tolist (gather example_label_scores
            (known_positions example_labels example_mask) 3)
    = [-1; -2; -3]%float /\
  tolist (gather example_labels
            (known_positions example_labels example_mask) 3) = [2%Z].
Proof. vm_compute. auto. Qed.

Lemma loss_token_mask_rejected_witness :
  loss unary_engine gold_score 0.125%float 0 0 0 0 0 0 1 token_mask_store
    = None.
Proof.
  apply (@loss_token_mask_rejected scalar unary_engine 0.125%float gold_score
           0 0 0 0 0 0 1 token_mask_store example_labels_batch
           example_tok_batch 2 3); try reflexivity; lia.
Defined.

(** ** The arc mask and the slice of [_predict] *)

Section ArcMaskSlice.
Context `{Scalar}.

(** X16.  [_predict] slices the chart of sentence [b] with
    [i = batch.lens[b] - 1].  For a sentence whose first [len] positions are
    real tokens and whose other positions are padding: if [batch.lens[b]] is
    [len + 1], the arc mask is true exactly on the rows and columns of the
    slice [chart[1:i, :i]]; if [batch.lens[b]] is [len], the number of real
    positions, and there are at least two of them, the arc from the root to
    the last real token is admitted by the mask but its row is not in the
    slice. *)
Theorem arc_mask_slice (bm : loc) s tok (B n b len : nat)
    (batch_lens : list Z) (i : Z) :
  s !! bm = Some (VBool tok) -> shape tok = [B; n] -> n <> 0 ->
  b < B -> len <= n ->
  (forall k, k < n -> elem tok [b; k] = (k <? len)) ->
  predict_lens batch_lens !! b = Some i ->
  exists s' mask m,
    arc_mask bm s = Some (s', mask) /\ s' !! mask = Some (VBool m) /\
    (batch_lens !! b = Some (Z.of_nat len + 1)%Z ->
     forall d h, d < n -> h < n ->
       (get m [b; d; h] = Some true <->
        d ∈ slice n 1 i /\ h ∈ slice n 0 i)) /\
    (batch_lens !! b = Some (Z.of_nat len) -> 2 <= len ->
     get m [b; len - 1; 0] = Some true /\ ~ (len - 1) ∈ slice n 1 i).
Proof.
  intros Hl Hs Hn Hb Hlen Htok Hi.
  unfold predict_lens in Hi. rewrite list_lookup_fmap in Hi.
  rewrite (arc_mask_run bm s tok B n Hl Hs Hn).
  eexists _, _, _. split; [reflexivity|]. split; [apply lookup_alloc_new|].
  assert (forall d h, d < n -> h < n ->
            get (arc_mask_of tok B n) [b; d; h]
            = Some (negb (d =? 0) && (d <? len) && (h <? len))) as Hg.
  { intros d h Hd Hh. rewrite get_in_bounds by (by apply in_bounds3).
    by rewrite (arc_mask_of_elem tok B n b d h Hb Hd Hh), !Htok by done. }
  assert (slice_bound n 1 = 1) as H1.
  { unfold slice_bound. cbn [Z.ltb Z.compare]. lia. }
  assert (slice_bound n 0 = 0) as H0.
  { unfold slice_bound. cbn [Z.ltb Z.compare]. lia. }
  split.
  - intros Hbl. rewrite Hbl in Hi. cbn in Hi. injection Hi as <-.
    intros d h Hd Hh. rewrite (Hg d h Hd Hh), !elem_of_slice, H1, H0.
    assert (slice_bound n (Z.of_nat len + 1 - 1) = len) as ->.
    { unfold slice_bound. destruct (Z.ltb_spec (Z.of_nat len + 1 - 1) 0); lia. }
    destruct (Nat.eqb_spec d 0), (Nat.ltb_spec d len), (Nat.ltb_spec h len);
      cbn [negb andb]; split; try done; try lia; intros [= ?].
  - intros Hbl Hlen2. rewrite Hbl in Hi. cbn in Hi. injection Hi as <-.
    split.
    + rewrite Hg by lia.
      destruct (Nat.eqb_spec (len - 1) 0), (Nat.ltb_spec (len - 1) len),
        (Nat.ltb_spec 0 len); try lia. done.
    + rewrite elem_of_slice, H1.
      assert (slice_bound n (Z.of_nat len - 1) = len - 1) as ->.
      { unfold slice_bound. destruct (Z.ltb_spec (Z.of_nat len - 1) 0); lia. }
      lia.
Qed.

End ArcMaskSlice.

(** The sentence of [example_tok_pad]: two real positions, one padding. *)
Lemma arc_mask_slice_witness :
  exists s' mask m,
    arc_mask 0 [VBool example_tok_pad] = Some (s', mask) /\
    s' !! mask = Some (VBool m) /\
    ([3%Z] !! 0 = Some (Z.of_nat 2 + 1)%Z ->
     forall d h, d < 3 -> h < 3 ->
       (get m [0; d; h] = Some true <->
        d ∈ slice 3 1 2 /\ h ∈ slice 3 0 2)) /\
    ([3%Z] !! 0 = Some (Z.of_nat 2) -> 2 <= 2 ->
     get m [0; 2 - 1; 0] = Some true /\ ~ (2 - 1) ∈ slice 3 1 2).
Proof.
  apply (@arc_mask_slice scalar 0 [VBool example_tok_pad] example_tok_pad
           1 3 0 2 [3%Z] 2%Z); try reflexivity; try lia.
  intros [|[|[|k]]] Hk; try reflexivity. lia.
Defined.

(** With a length of 2 for the same sentence the slice has no row, and the
    admitted arc from the root to the token is left out. *)
Example predict_lens_example :
  predict_lens [2%Z] = [1%Z] /\ slice 3 1 1 = [] /\
  (r ← arc_mask 0 [VBool example_tok_pad];
   m ← r.1 !! r.2 ≫= as_bool; get m [0; 1; 0]) = Some true.
Proof. vm_compute. auto. Qed.
